(** * store: commit aggregate, commitment proof operator and codec

    A shallow embedding of [store/commit_info.go] and [store/proof.go]
    and the properties of these two files.

    Conventions of the embedding:
    - [[]byte] is [list byte], a nil slice and an empty slice being the
      same list; a Go [string] is a Rocq [string] (both are sequences of
      8-bit characters); [uint64]/[int64] are [Z] with the wrap-around
      written out;
    - a method with a pointer receiver that mutates it takes the receiver
      and returns the new receiver next to the result;
    - a Go [(value, err)] pair is a [result] where the caller drops the
      value on error, and the tuple itself where it does not;
    - a run-time panic (index out of range, explicit [panic]) is the
      [Panicked] outcome. *)

From Stdlib Require Import ZArith Lia String Ascii List.
From Stdlib.Strings Require Import Byte.
From stdpp Require Import base option list sorting strings gmap.

Local Open Scope Z_scope.

(** ** Bytes and machine integers *)

Abbreviation bytes := (list byte).

Definition wrap_uint64 (z : Z) : Z := z mod 2 ^ 64.
Definition wrap_int64 (z : Z) : Z := (z + 2 ^ 63) mod 2 ^ 64 - 2 ^ 63.

(** [byte(x)]: the low eight bits of an integer. *)
Definition byte_of_Z (z : Z) : byte :=
  match Byte.of_N (Z.to_N (z mod 256)) with
  | Some b => b
  | None => x00
  end.

Definition Z_of_byte (b : byte) : Z := Z.of_N (Byte.to_N b).

(** ** Errors, results and panics *)

(** The error values built in the two files, one constructor per
    construction site, and [LibraryError] for an error handed back by
    code outside them. The four [InvalidProof_] constructors are the
    [errorsmod.Wrapf(ErrInvalidProof, ...)] calls of [Run]. *)
Inductive error : Type :=
| LibraryError (msg : string)
| InvalidProof_CalculateRoot (cause : error)
| InvalidProof_Absence (key : bytes)
| InvalidProof_Existence (key value : bytes)
| InvalidProof_ArgsLength (n : nat)
| NotRegisteredStoreName (storeName : string)
| CouldNotConvertProof (cause : error).

(** [errors.Is(err, ErrInvalidProof)]. *)
Definition wraps_ErrInvalidProof (e : error) : bool :=
  match e with
  | InvalidProof_CalculateRoot _ | InvalidProof_Absence _
  | InvalidProof_Existence _ _ | InvalidProof_ArgsLength _ => true
  | _ => false
  end.

Inductive result (A : Type) : Type :=
| Ok (a : A)
| Err (e : error).
Arguments Ok {A} a.
Arguments Err {A} e.

(** What a panic carries: the run-time error of an index out of range,
    an error value ([panic(err)]) or a string ([panic("...")]). *)
Inductive panic : Type :=
| IndexOutOfRange (index len : nat)
| PanicError (e : error)
| PanicString (msg : string).

Inductive outcome (A : Type) : Type :=
| Returned (a : A)
| Panicked (p : panic).
Arguments Returned {A} a.
Arguments Panicked {A} p.

(** ** [sort.Slice]

    [sort.Slice] runs an insertion sort on slices of at most twelve
    elements and pattern-defeating quicksort above; it promises a
    permutation ordered by [less] and no stability. The model is the
    insertion sort: each element in turn moves left past the elements
    it is less than. Whenever no two elements are equivalent for [less]
    every sorting algorithm returns this same list. *)
Section sort.
Context {A : Type} (less : A -> A -> bool).

Fixpoint sort_insert (x : A) (sorted : list A) : list A :=
  match sorted with
  | [] => [x]
  | y :: rest => if less x y then x :: y :: rest else y :: sort_insert x rest
  end.

Definition sort_Slice (l : list A) : list A :=
  fold_left (fun sorted x => sort_insert x sorted) l [].
End sort.

(** ** [time.Time]

    An instant: seconds since the Unix epoch and nanoseconds within the
    second. The location and the monotonic reading of a Go [Time] are
    not part of the instant and are left out. *)
Record Time : Type := mkTime { unixSec : Z; nsec : Z }.

Definition Second : Z := 1000000000.

(** The zero [Time], January 1, year 1, 00:00:00 UTC. *)
Definition zeroTime : Time := mkTime (-62135596800) 0.

(** [t.UnixNano()], in [int64] arithmetic. *)
Definition UnixNano (t : Time) : Z :=
  wrap_int64 (unixSec t * 1000000000 + nsec t).

(** [time.Unix(sec, nsec)]: [nsec] outside [0, 1e9) is carried into
    [sec]. *)
Definition Unix (sec nsec : Z) : Time :=
  if (nsec <? 0) || (1000000000 <=? nsec) then
    let n := Z.quot nsec 1000000000 in
    let sec := wrap_int64 (sec + n) in
    let nsec := wrap_int64 (nsec - n * 1000000000) in
    if nsec <? 0
    then mkTime (wrap_int64 (sec - 1)) (wrap_int64 (nsec + 1000000000))
    else mkTime sec nsec
  else mkTime sec nsec.

(** ** Data model (commit_info.go, lines 10-33) *)

Record CommitID : Type := mkCommitID {
  cid_Version : Z;
  cid_Hash : bytes
}.

Record StoreInfo : Type := mkStoreInfo {
  si_Name : string;
  si_CommitID : CommitID
}.

Record CommitInfo : Type := mkCommitInfo {
  ci_Version : Z;
  ci_StoreInfos : list StoreInfo;
  ci_Timestamp : Time;
  ci_CommitHash : bytes
}.

Definition GetHash (si : StoreInfo) : bytes := cid_Hash (si_CommitID si).

(** The [less] closure handed to [sort.Slice] in [GetStoreProof]. *)
Definition less_Name (a b : StoreInfo) : bool :=
  String.ltb (si_Name a) (si_Name b).

Definition set_StoreInfos (ci : CommitInfo) (sis : list StoreInfo) : CommitInfo :=
  mkCommitInfo (ci_Version ci) sis (ci_Timestamp ci) (ci_CommitHash ci).

Definition set_Version (ci : CommitInfo) (v : Z) : CommitInfo :=
  mkCommitInfo v (ci_StoreInfos ci) (ci_Timestamp ci) (ci_CommitHash ci).

Definition set_Timestamp (ci : CommitInfo) (t : Time) : CommitInfo :=
  mkCommitInfo (ci_Version ci) (ci_StoreInfos ci) t (ci_CommitHash ci).

(** ** Deterministic codec helpers

    [EncodeUvarint], [EncodeVarint], [EncodeBytes], [DecodeUvarint],
    [DecodeVarint] and [DecodeBytes] are called by [Marshal] and
    [Unmarshal] but are not among the source files. Section 4.4 of the
    specification names what they encode: unsigned varint, signed varint
    and length-prefixed byte string, and section 7 makes truncated or
    malformed input a decoding error. They are given the meaning these
    words have in Go ([encoding/binary]): base 128, least significant
    group first, bit 0x80 set on every byte but the last, at most ten
    bytes, zig-zag for the signed form; a byte string is its
    unsigned-varint length followed by its bytes. *)

Definition MaxVarintLen64 : nat := 10.

(** Modelled from the spec: the unsigned varint of section 4.4, written
    as [binary.PutUvarint] writes it, [fuel] continuation bytes at
    most. *)
Fixpoint putUvarint (fuel : nat) (x : Z) : bytes :=
  match fuel with
  | O => [byte_of_Z x]
  | S fuel' =>
      if 128 <=? x
      then byte_of_Z (Z.lor x 128) :: putUvarint fuel' (Z.shiftr x 7)
      else [byte_of_Z x]
  end.

(** Nine continuation bytes exhaust a 64-bit value, so the fuel is never
    spent on a [uint64]. *)
Definition PutUvarint (x : Z) : bytes := putUvarint (MaxVarintLen64 - 1) x.

(** Modelled from the spec: the signed varint of section 4.4, the
    zig-zag of [binary.PutVarint]. *)
Definition PutVarint (x : Z) : bytes :=
  let ux := wrap_uint64 (Z.shiftl (wrap_uint64 x) 1) in
  PutUvarint (if x <? 0 then 2 ^ 64 - 1 - ux else ux).

(** Modelled from the spec: reading an unsigned varint, as
    [binary.Uvarint] does: the value and the number of bytes read; [0]
    bytes when the buffer ends early, a negative count on overflow. *)
Fixpoint uvarint_from (buf : bytes) (i : nat) (x s : Z) : Z * Z :=
  match buf with
  | [] => (0, 0)
  | b :: rest =>
      if (i =? MaxVarintLen64)%nat then (0, - (Z.of_nat i + 1))
      else if Z_of_byte b <? 128 then
        if (i =? MaxVarintLen64 - 1)%nat && (1 <? Z_of_byte b)
        then (0, - (Z.of_nat i + 1))
        else (Z.lor x (wrap_uint64 (Z.shiftl (Z_of_byte b) s)), Z.of_nat i + 1)
      else
        uvarint_from rest (S i)
          (Z.lor x (wrap_uint64 (Z.shiftl (Z.land (Z_of_byte b) 127) s)))
          (s + 7)
  end.

Definition Uvarint (buf : bytes) : Z * Z := uvarint_from buf 0 0 0.

(** Modelled from the spec: [DecodeUvarint] is not among the source
    files; the unsigned varint of section 4.4, a decoding error
    (section 7) on truncated or overlong input. *)
Definition DecodeUvarint (bz : bytes) : result (Z * nat) :=
  let '(u, n) := Uvarint bz in
  if n =? 0 then Err (LibraryError "buffer too small")
  else if n <? 0 then Err (LibraryError "EOF decoding uvarint")
  else Ok (u, Z.to_nat n).

(** Modelled from the spec: [DecodeVarint] is not among the source
    files; the signed varint of section 4.4. *)
Definition DecodeVarint (bz : bytes) : result (Z * nat) :=
  match DecodeUvarint bz with
  | Err e => Err e
  | Ok (ux, n) =>
      let x := Z.shiftr ux 1 in
      Ok (if Z.testbit ux 0 then Z.lnot x else x, n)
  end.

(** Modelled from the spec: [DecodeBytes] is not among the source
    files; the length-prefixed byte string of section 4.4, a decoding
    error (section 7) when the length is out of range or the bytes are
    missing. *)
Definition DecodeBytes (bz : bytes) : result (bytes * nat) :=
  match DecodeUvarint bz with
  | Err e => Err e
  | Ok (s, n) =>
      if 2 ^ 63 - 1 <=? s
      then Err (LibraryError "invalid out of range length decoding []byte")
      else
        let size := Z.to_nat s in
        let end_ := (n + size)%nat in
        if (length bz <? end_)%nat
        then Err (LibraryError "insufficient bytes decoding []byte")
        else Ok (take size (drop n bz), end_)
  end.

(** Modelled from the spec: [EncodeUvarint], [EncodeVarint] and
    [EncodeBytes] are not among the source files; they append the
    encodings of section 4.4 to a [bytes.Buffer], here its contents. *)
Definition EncodeUvarint (w : bytes) (u : Z) : result bytes :=
  Ok (w ++ PutUvarint u).

Definition EncodeVarint (w : bytes) (i : Z) : result bytes :=
  Ok (w ++ PutVarint i).

Definition EncodeBytes (w : bytes) (bz : bytes) : result bytes :=
  match EncodeUvarint w (Z.of_nat (length bz)) with
  | Err e => Err e
  | Ok w' => Ok (w' ++ bz)
  end.

(** [if err := f(...); err != nil { return nil, err }] *)
Notation "x <- e ;; k" :=
  (match e with Ok x => k | Err err => Err err end)
  (at level 100, e at next level, right associativity,
   format "'[v' x  <-  e  ;;  '/' k ']'").

(** ** [CommitInfo.Marshal] and [CommitInfo.Unmarshal]
    (commit_info.go, lines 101-169) *)

Fixpoint marshalStoreInfos (sis : list StoreInfo) (buf : bytes) : result bytes :=
  match sis with
  | [] => Ok buf
  | si :: rest =>
      buf <- EncodeBytes buf (list_byte_of_string (si_Name si)) ;;
      buf <- EncodeBytes buf (cid_Hash (si_CommitID si)) ;;
      marshalStoreInfos rest buf
  end.

(** [buf.Grow(ci.encodedSize())] only reserves capacity. *)
Definition Marshal (ci : CommitInfo) : result bytes :=
  buf <- EncodeUvarint [] (ci_Version ci) ;;
  buf <- EncodeVarint buf (UnixNano (ci_Timestamp ci)) ;;
  buf <- EncodeUvarint buf (wrap_uint64 (Z.of_nat (length (ci_StoreInfos ci)))) ;;
  marshalStoreInfos (ci_StoreInfos ci) buf.

Definition zeroCommitID : CommitID := mkCommitID 0 [].
Definition zeroStoreInfo : StoreInfo := mkStoreInfo EmptyString zeroCommitID.

(** The loop [for i := 0; i < int(storeInfosLen); i++], [count]
    iterations from index [i]. The two assignments to
    [ci.StoreInfos[i]] are kept apart: a failure between them leaves the
    name set and the commit id zero. *)
Fixpoint unmarshalStoreInfos (count i : nat) (ci : CommitInfo) (buf : bytes)
  : CommitInfo * option error :=
  match count with
  | O => (ci, None)
  | S count' =>
      match DecodeBytes buf with
      | Err e => (ci, Some e)
      | Ok (name, n) =>
          let buf := drop n buf in
          let ci := set_StoreInfos ci
            (alter (fun si => mkStoreInfo (string_of_list_byte name) (si_CommitID si))
                   i (ci_StoreInfos ci)) in
          match DecodeBytes buf with
          | Err e => (ci, Some e)
          | Ok (hash, n) =>
              let buf := drop n buf in
              let ci := set_StoreInfos ci
                (alter (fun si => mkStoreInfo (si_Name si) (mkCommitID (ci_Version ci) hash))
                       i (ci_StoreInfos ci)) in
              unmarshalStoreInfos count' (S i) ci buf
          end
      end
  end.

(** The receiver is written as decoding proceeds, so an error returns
    the fields decoded so far; [CommitHash] is never written.
    [make([]StoreInfo, storeInfosLen)] is [storeInfosLen] zero entries
    (the allocation limit of the runtime is not modelled). *)
Definition Unmarshal (ci : CommitInfo) (buf : bytes) : CommitInfo * option error :=
  match DecodeUvarint buf with
  | Err e => (ci, Some e)
  | Ok (version, n) =>
      let buf := drop n buf in
      let ci := set_Version ci version in
      match DecodeVarint buf with
      | Err e => (ci, Some e)
      | Ok (timestamp, n) =>
          let buf := drop n buf in
          let ci := set_Timestamp ci
            (Unix (Z.quot timestamp Second) (Z.rem timestamp Second)) in
          match DecodeUvarint buf with
          | Err e => (ci, Some e)
          | Ok (storeInfosLen, n) =>
              let buf := drop n buf in
              let ci := set_StoreInfos ci
                (replicate (Z.to_nat storeInfosLen) zeroStoreInfo) in
              unmarshalStoreInfos (Z.to_nat (wrap_int64 storeInfosLen)) 0 ci buf
          end
      end
  end.

(** ** The ics23 library (proof.go, imports)

    [github.com/cosmos/ics23/go] is a dependency, not code of the store:
    the operations [proof.go] calls are the fields of an interface, and
    everything below holds for every implementation of it. A pointer to
    a library value is the value. *)
Class Ics23 : Type := {
  ProofSpec : Type;
  CommitmentProof : Type;
  ExistenceProof : Type;
  InnerOp : Type;
  IavlSpec : ProofSpec;
  TendermintSpec : ProofSpec;
  SmtSpec : ProofSpec;
  (** [&ics23.CommitmentProof{Proof: &ics23.CommitmentProof_Exist{Exist: p}}] *)
  CommitmentProof_Exist : ExistenceProof -> CommitmentProof;
  (** [p.Calculate()] *)
  CommitmentProof_Calculate : CommitmentProof -> result bytes;
  (** [p.Marshal()] *)
  CommitmentProof_Marshal : CommitmentProof -> result bytes;
  (** [ics23.VerifyMembership(spec, root, proof, key, value)] *)
  VerifyMembership : ProofSpec -> bytes -> CommitmentProof -> bytes -> bytes -> bool;
  (** [ics23.VerifyNonMembership(spec, root, proof, key)] *)
  VerifyNonMembership : ProofSpec -> bytes -> CommitmentProof -> bytes -> bool
}.

(** ** Proof operation types (proof.go, lines 14-19) *)

Definition ProofOpIAVLCommitment : string := "ics23:iavl".
Definition ProofOpSimpleMerkleCommitment : string := "ics23:simple".
Definition ProofOpSMTCommitment : string := "ics23:smt".

(** [cmtcrypto.ProofOp], the wire envelope. *)
Record ProofOp_wire : Type := mkProofOp {
  po_Type : string;
  po_Key : bytes;
  po_Data : bytes
}.

Definition zeroProofOp : ProofOp_wire := mkProofOp EmptyString [] [].

Section CommitmentOp.
Context `{Ics23}.

(** proof.go, lines 28-33 *)
Record CommitmentOp : Type := mkCommitmentOp {
  op_Type : string;
  op_Key : bytes;
  op_Spec : ProofSpec;
  op_Proof : CommitmentProof
}.

Definition NewIAVLCommitmentOp (key : bytes) (proof : CommitmentProof) : CommitmentOp :=
  {| op_Type := ProofOpIAVLCommitment; op_Spec := IavlSpec;
     op_Key := key; op_Proof := proof |}.

Definition NewSimpleMerkleCommitmentOp (key : bytes) (proof : CommitmentProof) : CommitmentOp :=
  {| op_Type := ProofOpSimpleMerkleCommitment; op_Spec := TendermintSpec;
     op_Key := key; op_Proof := proof |}.

Definition NewSMTCommitmentOp (key : bytes) (proof : CommitmentProof) : CommitmentOp :=
  {| op_Type := ProofOpSMTCommitment; op_Spec := SmtSpec;
     op_Key := key; op_Proof := proof |}.

Definition GetKey (op : CommitmentOp) : bytes := op_Key op.

(** proof.go, lines 76-103. The root is calculated before the
    argument count is looked at. *)
Definition Run (op : CommitmentOp) (args : list bytes) : result (list bytes) :=
  match CommitmentProof_Calculate (op_Proof op) with
  | Err err => Err (InvalidProof_CalculateRoot err)
  | Ok root =>
      match args with
      | [] =>
          let absent := VerifyNonMembership (op_Spec op) root (op_Proof op) (op_Key op) in
          if negb absent then Err (InvalidProof_Absence (op_Key op))
          else Ok [root]
      | [arg0] =>
          if negb (VerifyMembership (op_Spec op) root (op_Proof op) (op_Key op) arg0)
          then Err (InvalidProof_Existence (op_Key op) arg0)
          else Ok [root]
      | _ => Err (InvalidProof_ArgsLength (length args))
      end
  end.

(** proof.go, lines 108-118 *)
Definition ProofOp (op : CommitmentOp) : outcome ProofOp_wire :=
  match CommitmentProof_Marshal (op_Proof op) with
  | Err err => Panicked (PanicError err)
  | Ok bz => Returned {| po_Type := op_Type op; po_Key := op_Key op; po_Data := bz |}
  end.
End CommitmentOp.

(** ** Functions of the store that the two files call

    [LeafHash], [ProofFromByteSlices] and [ConvertCommitmentOp] (same
    package) and [internalmaps.ProofsFromMap],
    [internalproofs.ConvertExistenceProof] (internal packages) are not
    among the source files. They are taken as an interface with the
    signatures their call sites show; [SpecBuilder] below models them
    from the specification. [ProofsFromMap] has no error result: what
    it refuses, it refuses by a panic, which its caller does not
    recover. *)
Class StoreInternals `{Ics23} : Type := {
  LeafHash : bytes -> bytes -> result bytes;
  ProofFromByteSlices : list bytes -> nat -> bytes * list InnerOp;
  ConvertCommitmentOp : list InnerOp -> bytes -> bytes -> CommitmentOp;
  (** the [*cmtprotocrypto.Proof] values of the map [ProofsFromMap] returns *)
  SimpleProof : Type;
  ProofsFromMap :
    gmap string bytes -> outcome (bytes * gmap string SimpleProof * list string);
  ConvertExistenceProof : SimpleProof -> bytes -> bytes -> result ExistenceProof
}.

Section CommitInfo.
Context `{StoreInternals}.

(** The loop of [GetStoreProof] (commit_info.go, lines 73-82) from
    index [i] on: [leaves[i]] is assigned, an error of [LeafHash]
    leaves the function, and every store named [storeKey] overwrites
    [index]. *)
Fixpoint hashLeaves (storeKey : string) (sis : list StoreInfo) (i : nat)
    (leaves : list bytes) (index : nat) : result (list bytes * nat) :=
  match sis with
  | [] => Ok (leaves, index)
  | si :: rest =>
      leaf <- LeafHash (list_byte_of_string (si_Name si)) (GetHash si) ;;
      hashLeaves storeKey rest (S i) (<[i := leaf]> leaves)
        (if String.eqb (si_Name si) storeKey then i else index)
  end.

(** commit_info.go, lines 66-88. The result is the receiver after the
    in-place sort and the three returned values, or the panic of the
    index expression [ci.StoreInfos[index]]. *)
Definition GetStoreProof (ci : CommitInfo) (storeKey : string)
  : outcome (CommitInfo * (bytes * option CommitmentOp * option error)) :=
  let ci := set_StoreInfos ci (sort_Slice less_Name (ci_StoreInfos ci)) in
  let index := 0%nat in
  let leaves := replicate (length (ci_StoreInfos ci)) ([] : bytes) in
  match hashLeaves storeKey (ci_StoreInfos ci) 0 leaves index with
  | Err err => Returned (ci, ([], None, Some err))
  | Ok (leaves, index) =>
      let '(rootHash, inners) := ProofFromByteSlices leaves index in
      match ci_StoreInfos ci !! index with
      | None => Panicked (IndexOutOfRange index (length (ci_StoreInfos ci)))
      | Some si =>
          let commitmentOp :=
            ConvertCommitmentOp inners (list_byte_of_string storeKey) (GetHash si) in
          Returned (ci, (rootHash, Some commitmentOp, None))
      end
  end.

(** commit_info.go, lines 41-52 *)
Definition Hash (ci : CommitInfo) : outcome (CommitInfo * bytes) :=
  if (length (ci_StoreInfos ci) =? 0)%nat then Returned (ci, [])
  else if negb (length (ci_CommitHash ci) =? 0)%nat then Returned (ci, ci_CommitHash ci)
  else
    match GetStoreProof ci EmptyString with
    | Panicked p => Panicked p
    | Returned (ci, (rootHash, _, _)) => Returned (ci, rootHash)
    end.

(** commit_info.go, lines 55-62 *)
Fixpoint GetStoreCommitID_from (sis : list StoreInfo) (storeKey : string) : CommitID :=
  match sis with
  | [] => zeroCommitID
  | si :: rest =>
      if String.eqb (si_Name si) storeKey then si_CommitID si
      else GetStoreCommitID_from rest storeKey
  end.

Definition GetStoreCommitID (ci : CommitInfo) (storeKey : string) : CommitID :=
  GetStoreCommitID_from (ci_StoreInfos ci) storeKey.

(** proof.go, lines 121-145. A panic of [ProofsFromMap] (line 122)
    is not recovered. [proofs[storeName]] of a missing key is the nil
    pointer, [cmap[storeName]] of a missing key the nil slice. *)
Definition ProofOpFromMap (cmap : gmap string bytes) (storeName : string)
  : outcome (ProofOp_wire * option error) :=
  match ProofsFromMap cmap with
  | Panicked p => Panicked p
  | Returned (_, proofs, _) =>
      match proofs !! storeName with
      | None => Returned (zeroProofOp, Some (NotRegisteredStoreName storeName))
      | Some proof =>
          match ConvertExistenceProof proof (list_byte_of_string storeName)
                  (default [] (cmap !! storeName)) with
          | Err err => Returned (zeroProofOp, Some (CouldNotConvertProof err))
          | Ok existProof =>
              let commitmentProof := CommitmentProof_Exist existProof in
              match ProofOp (NewSimpleMerkleCommitmentOp
                               (list_byte_of_string storeName) commitmentProof) with
              | Panicked p => Panicked p
              | Returned ret => Returned (ret, None)
              end
          end
      end
  end.
End CommitInfo.

(** ** The Merkle tree builder and the proof structure of the specification

    The Merkle tree builder ([LeafHash], [ProofFromByteSlices],
    [ConvertCommitmentOp], [ProofsFromMap], [ConvertExistenceProof]) is
    not among the source files. Section 4.1 of the specification gives
    it: [leaf_hash(payload) = H(0x00 ∥ payload)], [inner_hash(left,
    right) = H(0x01 ∥ left ∥ right)], no leaves give the empty hash, one
    leaf is its own root, [n] leaves split at the largest power of two
    below [n]; the inclusion path of leaf [i] lists, from the leaf up,
    the root of the sibling subtree and its side. Section 4.2 makes a
    store's leaf [leaf_hash(name ∥ hash)], sections 3 and 4.3 make a
    proof an existence sub-proof (leaf and path) or a non-existence
    sub-proof and the proof spec one of three tree families. [H] is any
    hash function. *)
Section SpecBuilder.
Variable H : bytes -> bytes.

(** Modelled from the spec: the leaf and inner hashes of section 4.1,
    which are not among the source files. *)
Definition leaf_hash (payload : bytes) : bytes := H (x00 :: payload).
Definition inner_hash (left right : bytes) : bytes := H (x01 :: left ++ right).

(** The largest power of two below [n], doubling [k] while [2k < n]. *)
Fixpoint split_from (fuel k n : nat) : nat :=
  match fuel with
  | O => k
  | S fuel' => if (2 * k <? n)%nat then split_from fuel' (2 * k)%nat n else k
  end.

Definition split_point (n : nat) : nat := split_from n 1 n.

(** Modelled from the spec: the root of section 4.1 over [leaves];
    [fuel] bounds the depth and the number of leaves is enough of it. *)
Fixpoint root_of (fuel : nat) (leaves : list bytes) : bytes :=
  match leaves with
  | [] => []
  | [leaf] => leaf
  | _ =>
      match fuel with
      | O => []
      | S fuel' =>
          let k := split_point (length leaves) in
          inner_hash (root_of fuel' (take k leaves)) (root_of fuel' (drop k leaves))
      end
  end.

Definition merkle_root (leaves : list bytes) : bytes :=
  root_of (length leaves) leaves.

(** One step of an inclusion path: the sibling subtree's root and
    whether it is the left operand of the inner hash. *)
Record PathStep : Type := mkPathStep { sibling_is_left : bool; sibling : bytes }.

(** Modelled from the spec: the inclusion path of section 4.1 for the
    leaf at index [i], from the leaf level to the root. *)
Fixpoint path_of (fuel : nat) (leaves : list bytes) (i : nat) : list PathStep :=
  match leaves with
  | [] | [_] => []
  | _ =>
      match fuel with
      | O => []
      | S fuel' =>
          let k := split_point (length leaves) in
          if (i <? k)%nat
          then path_of fuel' (take k leaves) i
                 ++ [mkPathStep false (merkle_root (drop k leaves))]
          else path_of fuel' (drop k leaves) (i - k)
                 ++ [mkPathStep true (merkle_root (take k leaves))]
      end
  end.

Definition merkle_path (leaves : list bytes) (i : nat) : list PathStep :=
  path_of (length leaves) leaves i.

Definition apply_step (h : bytes) (s : PathStep) : bytes :=
  if sibling_is_left s then inner_hash (sibling s) h else inner_hash h (sibling s).

(** Modelled from the spec: the proof spec and the commitment proof of
    section 3, which are ics23 types: one of three tree families; an
    existence sub-proof or a non-existence sub-proof made of bounding
    existence proofs. [NoProof] is a proof that holds neither. *)
Inductive TreeFamily : Type := IAVL | SimpleMerkle | SMT.

Record Existence : Type := mkExistence {
  ex_key : bytes;
  ex_value : bytes;
  ex_path : list PathStep
}.

Inductive Commitment : Type :=
| Exist (e : Existence)
| Nonexist (key : bytes) (left right : option Existence)
| NoProof.

(** Modelled from the spec: the root an existence sub-proof implies
    (section 4.3), by hashing the leaf and then along the path. *)
Definition existence_root (e : Existence) : bytes :=
  fold_left apply_step (ex_path e) (leaf_hash (ex_key e ++ ex_value e)).

Definition bytes_eqb (a b : bytes) : bool :=
  (length a =? length b)%nat && forallb (fun p => Byte.eqb (fst p) (snd p)) (combine a b).

(** Modelled from the spec: the root implied by the embedded proof
    (section 4.3); a proof without sub-proof has none. *)
Definition commitment_root (p : Commitment) : result bytes :=
  match p with
  | Exist e => Ok (existence_root e)
  | Nonexist _ (Some l) _ => Ok (existence_root l)
  | Nonexist _ None (Some r) => Ok (existence_root r)
  | Nonexist _ None None =>
      Err (LibraryError "nonexistence proof has empty left and right proof")
  | NoProof => Err (LibraryError "unrecognized proof type")
  end.

(** Modelled from the spec: the serialized proof payload of section 6,
    a tag and the fields in order. *)
Definition commitment_bytes (p : Commitment) : result bytes :=
  let existence_bytes e :=
    ex_key e ++ ex_value e ++ concat (map sibling (ex_path e)) in
  match p with
  | Exist e => Ok (x0a :: existence_bytes e)
  | Nonexist key l r =>
      Ok (x12 :: key ++ from_option existence_bytes [] l
                     ++ from_option existence_bytes [] r)
  | NoProof => Ok []
  end.

(** Modelled from the spec: verification of section 4.3, as an
    existence proof of [key] with [value] against [root]. *)
Definition verify_membership (spec : TreeFamily) (root : bytes) (p : Commitment)
    (key value : bytes) : bool :=
  match p with
  | Exist e =>
      bytes_eqb (ex_key e) key && bytes_eqb (ex_value e) value
      && bytes_eqb (existence_root e) root
  | _ => false
  end.

(** Modelled from the spec: verification of section 4.3, as a
    non-existence proof of [key] against [root]. *)
Definition verify_non_membership (spec : TreeFamily) (root : bytes) (p : Commitment)
    (key : bytes) : bool :=
  let bound (o : option Existence) :=
    from_option (fun e => negb (bytes_eqb (ex_key e) key)
                          && bytes_eqb (existence_root e) root) true o in
  match p with
  | Nonexist k l r =>
      bytes_eqb k key && (bool_decide (is_Some l) || bool_decide (is_Some r))
      && bound l && bound r
  | _ => false
  end.

(** Modelled from the spec: the ics23 operations [proof.go] calls, on
    the proofs of sections 3 and 4.3. *)
#[local] Instance SpecIcs23 : Ics23 := {|
  ProofSpec := TreeFamily;
  CommitmentProof := Commitment;
  ExistenceProof := Existence;
  InnerOp := PathStep;
  IavlSpec := IAVL;
  TendermintSpec := SimpleMerkle;
  SmtSpec := SMT;
  CommitmentProof_Exist := Exist;
  CommitmentProof_Calculate := commitment_root;
  CommitmentProof_Marshal := commitment_bytes;
  VerifyMembership := verify_membership;
  VerifyNonMembership := verify_non_membership
|}.

(** The proof [ProofsFromMap] keeps for one key: its position among
    the sorted keys and its inclusion path. *)
Record MapProof : Type := mkMapProof {
  mp_total : nat;
  mp_index : nat;
  mp_path : list PathStep
}.

Definition less_key (a b : string * bytes) : bool := String.ltb (fst a) (fst b).

(** Modelled from the spec: the triple [internalmaps.ProofsFromMap]
    builds from a map it accepts; by section 4.3 the same inclusion
    proofs as [GetStoreProof]: the root, a proof for every key and the
    keys in order. *)
Definition map_proofs (cmap : gmap string bytes)
  : bytes * gmap string MapProof * list string :=
  let kvs := sort_Slice less_key (map_to_list cmap) in
  let leaves := map (fun kv => leaf_hash (list_byte_of_string (fst kv) ++ snd kv)) kvs in
  let proofs :=
    imap (fun i kv => (fst kv, mkMapProof (length kvs) i (merkle_path leaves i))) kvs in
  (merkle_root leaves, list_to_map proofs, map fst kvs).

(** Modelled from the spec: [internalmaps.ProofsFromMap] is not among
    the source files. It sets every pair of the map into its own sorted
    map first, and that refuses a key of length 0 with the panic
    [key is nil]; the specification does not speak of the empty key,
    the model keeps what the package does with it. *)
Definition spec_ProofsFromMap (cmap : gmap string bytes)
  : outcome (bytes * gmap string MapProof * list string) :=
  match cmap !! EmptyString with
  | Some _ => Panicked (PanicString "key is nil")
  | None => Returned (map_proofs cmap)
  end.

(** Modelled from the spec: the functions of the store that are not
    among the source files, from sections 4.1 to 4.3. The conversion of
    a map proof fails on malformed path data, here an index outside the
    total. *)
#[local] Instance SpecBuilder : StoreInternals := {|
  LeafHash key value := Ok (leaf_hash (key ++ value));
  ProofFromByteSlices leaves index := (merkle_root leaves, merkle_path leaves index);
  ConvertCommitmentOp inners key value :=
    NewSimpleMerkleCommitmentOp key (Exist (mkExistence key value inners));
  SimpleProof := MapProof;
  ProofsFromMap := spec_ProofsFromMap;
  ConvertExistenceProof proof key value :=
    if (mp_index proof <? mp_total proof)%nat
    then Ok (mkExistence key value (mp_path proof))
    else Err (LibraryError "malformed path data")
|}.
End SpecBuilder.

(** A stand-in for [H], used only to run the definitions on concrete
    inputs: 32-bit FNV-1a, big-endian digest. *)
Definition fnv1a (data : bytes) : bytes :=
  let h := fold_left
    (fun h b => (Z.lxor h (Z_of_byte b) * 16777619) mod 2 ^ 32) data 2166136261 in
  map (fun k => byte_of_Z (Z.shiftr h k)) [24; 16; 8; 0].

Definition RunIcs23 : Ics23 := SpecIcs23 fnv1a.
Definition RunBuilder : @StoreInternals RunIcs23 := SpecBuilder fnv1a.

(** ** Functions used to state the properties *)

Section statements.
Context `{StoreInternals}.

(** The leaves of [GetStoreProof], in list order, or the first error
    of [LeafHash]. *)
Fixpoint leaf_hashes (sis : list StoreInfo) : result (list bytes) :=
  match sis with
  | [] => Ok []
  | si :: rest =>
      leaf <- LeafHash (list_byte_of_string (si_Name si)) (GetHash si) ;;
      leaves <- leaf_hashes rest ;;
      Ok (leaf :: leaves)
  end.

(** The value of [index] after the loop of [GetStoreProof] has run
    over [sis] from position [i]. *)
Fixpoint selectIndex (storeKey : string) (sis : list StoreInfo) (i index : nat) : nat :=
  match sis with
  | [] => index
  | si :: rest =>
      selectIndex storeKey rest (S i)
        (if String.eqb (si_Name si) storeKey then i else index)
  end.

(** The store infos as [GetStoreProof] leaves them. *)
Definition sorted_StoreInfos (ci : CommitInfo) : list StoreInfo :=
  sort_Slice less_Name (ci_StoreInfos ci).

(** The root [GetStoreProof] returns for the empty store key over
    store infos [sis] that are already in order: the root of the leaf
    hashes, the nil slice when a leaf fails to hash. *)
Definition computed_root (sis : list StoreInfo) : bytes :=
  match leaf_hashes sis with
  | Err _ => []
  | Ok leaves => fst (ProofFromByteSlices leaves (selectIndex EmptyString sis 0 0))
  end.

(** The wire envelopes the two files produce: by [ProofOp] on an
    operator built by one of the three constructors, or by
    [ProofOpFromMap]. *)
Inductive produced_envelope : ProofOp_wire -> Prop :=
| produced_by_IAVL key proof env :
    ProofOp (NewIAVLCommitmentOp key proof) = Returned env -> produced_envelope env
| produced_by_SimpleMerkle key proof env :
    ProofOp (NewSimpleMerkleCommitmentOp key proof) = Returned env -> produced_envelope env
| produced_by_SMT key proof env :
    ProofOp (NewSMTCommitmentOp key proof) = Returned env -> produced_envelope env
| produced_from_map cmap storeName env :
    ProofOpFromMap cmap storeName = Returned (env, None) -> produced_envelope env.

(** The proofs of the triple [ProofsFromMap] returns; none when it
    panics. *)
Definition proofs_of (cmap : gmap string bytes) : gmap string SimpleProof :=
  match ProofsFromMap cmap with
  | Returned (_, proofs, _) => proofs
  | Panicked _ => ∅
  end.
End statements.

(** ** Sample inputs *)

(** The map [{"a": Ha, "b": Hb}]. *)
Definition sample_cmap : gmap string bytes :=
  {[ "a"%string := [x0a; x0a]; "b"%string := [x0b] ]}.

(** [sample_cmap] with a hash under the empty store name as well. *)
Definition sample_cmap_empty_key : gmap string bytes :=
  <[ EmptyString := [x0c] ]> sample_cmap.

(** The existence proof of store [bank] in [sample_ci], and an operator
    around a proof that holds neither sub-proof. *)
Definition sample_op : @CommitmentOp RunIcs23 :=
  @NewSimpleMerkleCommitmentOp RunIcs23 (list_byte_of_string "bank")
    (Exist (mkExistence (list_byte_of_string "bank") [x11; x11]
       [mkPathStep true
          (leaf_hash fnv1a (list_byte_of_string "auth" ++ [x22]))])).

Definition sample_bad_op : @CommitmentOp RunIcs23 :=
  @NewIAVLCommitmentOp RunIcs23 (list_byte_of_string "bank") NoProof.

Definition sample_bank : StoreInfo := mkStoreInfo "bank" (mkCommitID 7 [x11; x11]).
Definition sample_auth : StoreInfo := mkStoreInfo "auth" (mkCommitID 7 [x22]).
Definition sample_ibc : StoreInfo := mkStoreInfo "ibc" (mkCommitID 7 [x33]).

Definition sample_ci : CommitInfo :=
  mkCommitInfo 7 [sample_bank; sample_auth] (mkTime 1700000000 5) [].

(** A record whose [CommitHash] was set by its owner. *)
Definition sample_hashed_ci : CommitInfo :=
  mkCommitInfo 7 [sample_bank; sample_auth] (mkTime 1700000000 5) [xca; xfe].

Definition sample_empty_ci : CommitInfo :=
  mkCommitInfo 7 [] (mkTime 1700000000 5) [xca; xfe].

(** A record whose store [x] was committed at version 3, below the
    version 7 of the aggregate. *)
Definition sample_codec_ci : CommitInfo :=
  mkCommitInfo 7 [mkStoreInfo "x" (mkCommitID 3 [x01; x02]); sample_bank]
    (mkTime 1700000000 5) [xca; xfe].

(** The zero value [CommitInfo{}]. *)
Definition zeroCommitInfo : CommitInfo := mkCommitInfo 0 [] zeroTime [].

(** The order [sort.Slice] leaves a slice in: [a] may stand before [b]
    when [b] is not less than [a]. *)
Definition not_after {A : Type} (less : A -> A -> bool) (a b : A) : Prop :=
  less b a = false.

(** The order of the sorted store infos. *)
Definition le_Name : StoreInfo -> StoreInfo -> Prop := not_after less_Name.

(** What the types of Go give for free: [Version] is a [uint64] and
    every length is an [int], below the largest one. *)
Definition well_typed (ci : CommitInfo) : Prop :=
  0 <= ci_Version ci < 2 ^ 64
  /\ Z.of_nat (length (ci_StoreInfos ci)) < 2 ^ 63 - 1
  /\ Forall (fun si =>
       Z.of_nat (String.length (si_Name si)) < 2 ^ 63 - 1
       /\ Z.of_nat (length (GetHash si)) < 2 ^ 63 - 1) (ci_StoreInfos ci).

(** A [Time] keeps its nanoseconds within the second. *)
Definition valid_Time (t : Time) : Prop := 0 <= nsec t < 1000000000.

(** The instants [UnixNano] can express: the Unix time in nanoseconds
    fits an [int64] (years 1678 to 2262). *)
Definition fits_UnixNano (t : Time) : Prop :=
  - 2 ^ 63 <= unixSec t * 1000000000 + nsec t < 2 ^ 63.

(** What [Unmarshal] rebuilds of a store info: the name and the hash,
    under the version of the aggregate. *)
Definition decoded_StoreInfo (version : Z) (si : StoreInfo) : StoreInfo :=
  mkStoreInfo (si_Name si) (mkCommitID version (GetHash si)).

(** The encoding of a byte string and of a store info, as [Marshal]
    writes them. *)
Definition encoded_bytes (bz : bytes) : bytes :=
  PutUvarint (Z.of_nat (length bz)) ++ bz.

Definition encoded_StoreInfo (si : StoreInfo) : bytes :=
  encoded_bytes (list_byte_of_string (si_Name si)) ++ encoded_bytes (GetHash si).

(** The three type strings of the constructors. *)
Definition proof_op_types : list string :=
  [ProofOpIAVLCommitment; ProofOpSimpleMerkleCommitment; ProofOpSMTCommitment].

(** The type strings the specification lists for the wire envelope. *)
Definition spec_proof_op_types : list string :=
  ["commitment:iavl"; "commitment:simple"; "commitment:smt"]%string.

(** ** The remaining methods of commit_info.go *)

(** commit_info.go, lines 189-191 *)
Definition IsZero (cid : CommitID) : bool :=
  (cid_Version cid =? 0) && (length (cid_Hash cid) =? 0)%nat.

(** commit_info.go, lines 178-183; the receiver may be the nil pointer. *)
Definition GetVersion (m : option CommitInfo) : Z :=
  match m with
  | Some ci => ci_Version ci
  | None => 0
  end.

Section CommitInfo_CommitID.
Context `{StoreInternals}.

(** commit_info.go, lines 171-176 *)
Definition CommitInfo_CommitID (ci : CommitInfo) : outcome (CommitInfo * CommitID) :=
  match Hash ci with
  | Panicked p => Panicked p
  | Returned (ci', hash) => Returned (ci', mkCommitID (ci_Version ci) hash)
  end.
End CommitInfo_CommitID.

(** The size helpers [encodedSize] calls are not among the source files
    either: they are an interface, as the other functions of the store
    are. *)
Class CodecSizes : Type := {
  EncodeUvarintSize : Z -> Z;
  EncodeVarintSize : Z -> Z;
  EncodeBytesSize : bytes -> Z
}.

Section encodedSize.
Context `{CodecSizes}.

(** commit_info.go, lines 90-99, in [int] arithmetic. *)
Definition encodedSize (ci : CommitInfo) : Z :=
  let size := EncodeUvarintSize (ci_Version ci) in
  let size := wrap_int64 (size + EncodeVarintSize (UnixNano (ci_Timestamp ci))) in
  let size := wrap_int64 (size + EncodeUvarintSize
                (wrap_uint64 (Z.of_nat (length (ci_StoreInfos ci))))) in
  fold_left
    (fun size storeInfo =>
       let size := wrap_int64
         (size + EncodeBytesSize (list_byte_of_string (si_Name storeInfo))) in
       wrap_int64 (size + EncodeBytesSize (cid_Hash (si_CommitID storeInfo))))
    (ci_StoreInfos ci) size.
End encodedSize.

(** Size helpers that return the number of bytes the encoders write. *)
Definition RunSizes : CodecSizes := {|
  EncodeUvarintSize u := Z.of_nat (length (PutUvarint u));
  EncodeVarintSize i := Z.of_nat (length (PutVarint i));
  EncodeBytesSize bz := Z.of_nat (length (encoded_bytes bz))
|}.

Section built_by_constructor.
Context `{Ics23}.

(** The operators the three constructors of proof.go build. *)
Inductive built_by_constructor : CommitmentOp -> Prop :=
| built_IAVL key proof : built_by_constructor (NewIAVLCommitmentOp key proof)
| built_SimpleMerkle key proof :
    built_by_constructor (NewSimpleMerkleCommitmentOp key proof)
| built_SMT key proof : built_by_constructor (NewSMTCommitmentOp key proof).
End built_by_constructor.

(** What [Marshal] writes of a store info and [LeafHash] is given: the
    name and the hash. *)
Definition name_and_hash (si : StoreInfo) : string * bytes :=
  (si_Name si, GetHash si).

(** An implementation of the store's functions whose [LeafHash] refuses
    an empty key or an empty value, as the one of the package does, to
    run the error path of [GetStoreProof]. *)
Definition strict_LeafHash (key value : bytes) : result bytes :=
  if (length key =? 0)%nat then Err (LibraryError "leaf needs a key")
  else if (length value =? 0)%nat then Err (LibraryError "leaf needs a value")
  else Ok (leaf_hash fnv1a (key ++ value)).

Definition StrictBuilder : @StoreInternals RunIcs23 := {|
  LeafHash := strict_LeafHash;
  ProofFromByteSlices := @ProofFromByteSlices RunIcs23 RunBuilder;
  ConvertCommitmentOp := @ConvertCommitmentOp RunIcs23 RunBuilder;
  SimpleProof := @SimpleProof RunIcs23 RunBuilder;
  ProofsFromMap := @ProofsFromMap RunIcs23 RunBuilder;
  ConvertExistenceProof := @ConvertExistenceProof RunIcs23 RunBuilder
|}.

(** A store that has no hash yet, and a record that holds it. *)
Definition sample_gov : StoreInfo := mkStoreInfo "gov" (mkCommitID 7 []).

Definition sample_unhashed_ci : CommitInfo :=
  mkCommitInfo 7 [sample_bank; sample_gov; sample_auth] (mkTime 1700000000 5) [].

(** [sample_codec_ci] with another [CommitHash] and other store
    versions. *)
Definition sample_codec_ci' : CommitInfo :=
  mkCommitInfo 7 [mkStoreInfo "x" (mkCommitID 9 [x01; x02]);
                  mkStoreInfo "bank" (mkCommitID 1 [x11; x11])]
    (mkTime 1700000000 5) [].

(** ** Strings under the byte-wise order of Go *)

Lemma string_compare_lt_trans (a b c : string) :
  String.compare a b = Lt -> String.compare b c = Lt -> String.compare a c = Lt.
Proof.
  revert b c. induction a as [|x a IH]; intros [|y b] [|z c]; simpl; try done.
  unfold Ascii.compare.
  destruct (N.compare_spec (N_of_ascii x) (N_of_ascii y)) as [Exy|Lxy|Gxy];
    destruct (N.compare_spec (N_of_ascii y) (N_of_ascii z)) as [Eyz|Lyz|Gyz];
    try done; intros Hab Hbc.
  - rewrite Exy, Eyz, N.compare_refl. eauto.
  - rewrite Exy. by apply N.compare_lt_iff in Lyz as ->.
  - rewrite <- Eyz. by apply N.compare_lt_iff in Lxy as ->.
  - assert (N_of_ascii x < N_of_ascii z)%N as Hxz by lia.
    by apply N.compare_lt_iff in Hxz as ->.
Qed.

Lemma string_compare_refl (a : string) : String.compare a a = Eq.
Proof.
  induction a as [|x a IH]; simpl; [done|].
  unfold Ascii.compare. by rewrite N.compare_refl.
Qed.

Lemma string_ltb_irrefl (a : string) : String.ltb a a = false.
Proof. unfold String.ltb. by rewrite string_compare_refl. Qed.

Lemma string_ltb_asym (a b : string) :
  String.ltb a b = true -> String.ltb b a = false.
Proof.
  unfold String.ltb. rewrite (String.compare_antisym b a).
  by destruct (String.compare a b).
Qed.

Lemma string_not_ltb_antisym (a b : string) :
  String.ltb a b = false -> String.ltb b a = false -> a = b.
Proof.
  unfold String.ltb. rewrite (String.compare_antisym b a).
  destruct (String.compare a b) eqn:E; simpl; try done.
  intros _ _. by apply String.compare_eq_iff.
Qed.

Lemma string_not_ltb_trans (a b c : string) :
  String.ltb b a = false -> String.ltb c b = false -> String.ltb c a = false.
Proof.
  unfold String.ltb.
  destruct (String.compare b a) eqn:Eba; try done;
    destruct (String.compare c b) eqn:Ecb; try done; intros _ _.
  - apply String.compare_eq_iff in Eba, Ecb. subst. by rewrite string_compare_refl.
  - apply String.compare_eq_iff in Eba. subst. by rewrite Ecb.
  - apply String.compare_eq_iff in Ecb. subst. by rewrite Eba.
  - rewrite (String.compare_antisym c a).
    rewrite (String.compare_antisym b a) in Eba.
    rewrite (String.compare_antisym c b) in Ecb.
    destruct (String.compare a b) eqn:Eab; try done.
    destruct (String.compare b c) eqn:Ebc; try done.
    by rewrite (string_compare_lt_trans _ _ _ Eab Ebc).
Qed.

#[local] Instance le_Name_trans : Transitive le_Name.
Proof.
  intros a b c Hab Hbc. unfold le_Name, not_after, less_Name in *.
  eauto using string_not_ltb_trans.
Qed.

Lemma less_Name_asym (a b : StoreInfo) : less_Name a b = true -> less_Name b a = false.
Proof. apply string_ltb_asym. Qed.

(** ** [sort_Slice] returns an ordered permutation *)

Section sort_facts.
Context {A : Type} (less : A -> A -> bool).
Hypothesis less_asym : forall a b, less a b = true -> less b a = false.

Lemma sort_insert_Permutation (x : A) (l : list A) : sort_insert less x l ≡ₚ x :: l.
Proof.
  induction l as [|y l IH]; simpl; [done|].
  destruct (less x y); [done|]. rewrite IH. apply Permutation_swap.
Qed.

Lemma sort_Slice_Permutation (l : list A) : sort_Slice less l ≡ₚ l.
Proof.
  unfold sort_Slice.
  enough (forall acc, fold_left (fun s x => sort_insert less x s) l acc ≡ₚ acc ++ l) as Hgen
    by apply Hgen.
  induction l as [|x l IH]; intros acc; simpl.
  - by rewrite app_nil_r.
  - rewrite IH, sort_insert_Permutation. by rewrite <- Permutation_middle.
Qed.

Lemma sort_insert_HdRel (a x : A) (l : list A) :
  not_after less a x -> HdRel (not_after less) a l ->
  HdRel (not_after less) a (sort_insert less x l).
Proof. intros Hax Hal. destruct Hal; simpl; [|destruct (less x _)]; by constructor. Qed.

Lemma sort_insert_Sorted (x : A) (l : list A) :
  Sorted (not_after less) l -> Sorted (not_after less) (sort_insert less x l).
Proof.
  induction 1 as [|y l Hl IH Hy]; simpl.
  - by repeat constructor.
  - destruct (less x y) eqn:Hxy.
    + repeat constructor; [done..|]. by apply less_asym.
    + constructor; [done|]. by apply sort_insert_HdRel.
Qed.

Lemma sort_Slice_Sorted (l : list A) : Sorted (not_after less) (sort_Slice less l).
Proof.
  unfold sort_Slice.
  enough (forall acc, Sorted (not_after less) acc ->
            Sorted (not_after less) (fold_left (fun s x => sort_insert less x s) l acc)) as Hgen
    by (apply Hgen; constructor).
  induction l as [|x l IH]; intros acc Hacc; simpl; [done|].
  by apply IH, sort_insert_Sorted.
Qed.

Lemma sort_Slice_nil_inv (l : list A) : sort_Slice less l = [] -> l = [].
Proof.
  intros Hnil. apply Permutation_nil_r. rewrite <- Hnil.
  symmetry. apply sort_Slice_Permutation.
Qed.

Lemma sort_Slice_length (l : list A) : length (sort_Slice less l) = length l.
Proof. by rewrite sort_Slice_Permutation. Qed.
End sort_facts.

Lemma NoDup_map_eq {A B : Type} (f : A -> B) (l : list A) (x y : A) :
  NoDup (map f l) -> x ∈ l -> y ∈ l -> f x = f y -> x = y.
Proof.
  induction l as [|a l IH]; simpl; intros Hnd Hx Hy Hf; [by inv Hx|].
  apply NoDup_cons in Hnd as [Ha Hnd].
  assert (forall z, z ∈ l -> f z <> f a) as Hfresh.
  { intros z Hz Hfz. apply Ha. rewrite <- Hfz.
    by apply (list_elem_of_fmap_2 f l z). }
  inv Hx; inv Hy; try done.
  - exfalso. by eapply Hfresh.
  - exfalso. by eapply Hfresh.
  - by apply IH.
Qed.

(** With distinct names the sorted store infos depend on the set of
    stores only. *)
Lemma sort_Slice_less_Name_unique (l1 l2 : list StoreInfo) :
  NoDup (map si_Name l1) -> l1 ≡ₚ l2 ->
  sort_Slice less_Name l1 = sort_Slice less_Name l2.
Proof.
  intros Hnd Hperm.
  apply (Sorted_unique_strong le_Name).
  - intros x1 x2 Hx1 Hx2 H12 H21.
    rewrite (sort_Slice_Permutation less_Name l1) in Hx1.
    rewrite (sort_Slice_Permutation less_Name l2), <- Hperm in Hx2.
    apply (NoDup_map_eq si_Name l1); [done..|].
    unfold le_Name, not_after, less_Name in *. by apply string_not_ltb_antisym.
  - apply sort_Slice_Sorted, less_Name_asym.
  - apply sort_Slice_Sorted, less_Name_asym.
  - by rewrite !sort_Slice_Permutation.
Qed.

Lemma sort_Slice_less_Name_idemp (l : list StoreInfo) :
  NoDup (map si_Name l) ->
  sort_Slice less_Name (sort_Slice less_Name l) = sort_Slice less_Name l.
Proof.
  intros Hnd. symmetry. apply sort_Slice_less_Name_unique; [done|].
  symmetry. apply sort_Slice_Permutation.
Qed.

(** ** The loop of [GetStoreProof] *)

Section GetStoreProof_facts.
Context `{StoreInternals}.

(** The loop fills [leaves] from position [i] with the leaf hashes and
    leaves [index] at [selectIndex]. *)
Lemma hashLeaves_eq (storeKey : string) (sis : list StoreInfo)
    (done todo : list bytes) (index : nat) :
  (length sis <= length todo)%nat ->
  hashLeaves storeKey sis (length done) (done ++ todo) index =
    (ls <- leaf_hashes sis ;;
     Ok (done ++ ls ++ drop (length sis) todo,
         selectIndex storeKey sis (length done) index)).
Proof.
  revert done todo index.
  induction sis as [|si sis IH]; intros done todo index Hlen; simpl in *.
  - by rewrite drop_0.
  - destruct (LeafHash _ _) as [leaf|e]; [|done].
    destruct todo as [|t todo]; simpl in Hlen; [lia|].
    rewrite insert_app_r_alt, Nat.sub_diag by lia. simpl.
    replace (done ++ leaf :: todo) with ((done ++ [leaf]) ++ todo)
      by (by rewrite <- app_assoc).
    replace (S (length done)) with (length (done ++ [leaf]))
      by (rewrite length_app; simpl; lia).
    rewrite IH by lia.
    destruct (leaf_hashes sis) as [ls|e]; [|done].
    by rewrite <- app_assoc.
Qed.

Lemma leaf_hashes_length (sis : list StoreInfo) (leaves : list bytes) :
  leaf_hashes sis = Ok leaves -> length leaves = length sis.
Proof.
  revert leaves. induction sis as [|si sis IH]; intros leaves; simpl.
  - by intros [= <-].
  - destruct (LeafHash _ _); [|done].
    destruct (leaf_hashes sis) as [ls|]; [|done].
    intros [= <-]. simpl. by rewrite (IH ls).
Qed.

(** [index] is left alone when no store is named [storeKey], and is
    the position of such a store otherwise. *)
Lemma selectIndex_spec (storeKey : string) (sis : list StoreInfo) (i index : nat) :
  (selectIndex storeKey sis i index = index
     /\ Forall (fun si => si_Name si <> storeKey) sis)
  \/ (exists si, (i <= selectIndex storeKey sis i index)%nat
        /\ sis !! (selectIndex storeKey sis i index - i)%nat = Some si
        /\ si_Name si = storeKey).
Proof.
  revert i index. induction sis as [|si sis IH]; intros i index; simpl.
  - left. by split.
  - destruct (String.eqb_spec (si_Name si) storeKey) as [Heq|Hne].
    + right. destruct (IH (S i) i) as [[-> _]|(si' & Hle & Hsi' & Hname)].
      * exists si. by rewrite Nat.sub_diag.
      * exists si'. split; [lia|]. split; [|done].
        replace (selectIndex storeKey sis (S i) i - i)%nat
          with (S (selectIndex storeKey sis (S i) i - S i)) by lia.
        done.
    + destruct (IH (S i) index) as [[-> Hall]|(si' & Hle & Hsi' & Hname)].
      * left. split; [done|]. by constructor.
      * right. exists si'. split; [lia|]. split; [|done].
        replace (selectIndex storeKey sis (S i) index - i)%nat
          with (S (selectIndex storeKey sis (S i) index - S i)) by lia.
        done.
Qed.

(** The index [GetStoreProof] selects lies within non-empty store
    infos. *)
Lemma selectIndex_in_bounds (storeKey : string) (sis : list StoreInfo) :
  sis <> [] -> (selectIndex storeKey sis 0 0 < length sis)%nat.
Proof.
  intros Hne.
  destruct (selectIndex_spec storeKey sis 0 0) as [[-> _]|(si & _ & Hsi & _)].
  - destruct sis; [done|simpl; lia].
  - rewrite Nat.sub_0_r in Hsi. by apply lookup_lt_Some in Hsi.
Qed.

Lemma hashLeaves_start (storeKey : string) (sis : list StoreInfo) :
  hashLeaves storeKey sis 0 (replicate (length sis) []) 0 =
    (ls <- leaf_hashes sis ;; Ok (ls, selectIndex storeKey sis 0 0)).
Proof.
  pose proof (hashLeaves_eq storeKey sis [] (replicate (length sis) []) 0) as Heq.
  simpl in Heq. rewrite Heq by (by rewrite length_replicate).
  destruct (leaf_hashes sis) as [ls|e]; [|done].
  rewrite drop_ge by (by rewrite length_replicate).
  by rewrite app_nil_r.
Qed.

(** [GetStoreProof] on non-empty store infos: it returns, with the
    error of the first leaf that fails to hash or with the root and
    the operator of the selected store. *)
Lemma GetStoreProof_nonempty (ci : CommitInfo) (storeKey : string) :
  ci_StoreInfos ci <> [] ->
  exists si, sorted_StoreInfos ci !! selectIndex storeKey (sorted_StoreInfos ci) 0 0 = Some si
    /\ GetStoreProof ci storeKey =
       Returned (set_StoreInfos ci (sorted_StoreInfos ci),
         match leaf_hashes (sorted_StoreInfos ci) with
         | Err err => ([], None, Some err)
         | Ok leaves =>
             let proof := ProofFromByteSlices leaves
                            (selectIndex storeKey (sorted_StoreInfos ci) 0 0) in
             (fst proof,
              Some (ConvertCommitmentOp (snd proof)
                      (list_byte_of_string storeKey) (GetHash si)),
              None)
         end).
Proof.
  intros Hne.
  assert (sorted_StoreInfos ci <> []) as Hne'.
  { intros Hnil. by apply sort_Slice_nil_inv in Hnil. }
  destruct (lookup_lt_is_Some_2 _ _ (selectIndex_in_bounds storeKey _ Hne'))
    as [si Hsi].
  exists si. split; [done|].
  unfold GetStoreProof. simpl. fold (sorted_StoreInfos ci).
  rewrite hashLeaves_start.
  destruct (leaf_hashes (sorted_StoreInfos ci)) as [leaves|err]; [|done].
  destruct (ProofFromByteSlices leaves _) as [rootHash inners] eqn:Hproof.
  by rewrite Hsi.
Qed.

Lemma GetStoreProof_empty (ci : CommitInfo) (storeKey : string) :
  ci_StoreInfos ci = [] ->
  GetStoreProof ci storeKey = Panicked (IndexOutOfRange 0 0).
Proof.
  intros Hnil. unfold GetStoreProof. rewrite Hnil. simpl.
  by destruct (ProofFromByteSlices [] 0).
Qed.
End GetStoreProof_facts.

(** ** [CommitInfo.Hash] and [CommitInfo.GetStoreProof] *)

Section Hash_facts.
Context `{StoreInternals}.

Lemma Hash_computes (ci : CommitInfo) :
  ci_StoreInfos ci <> [] -> ci_CommitHash ci = [] ->
  Hash ci = Returned (set_StoreInfos ci (sorted_StoreInfos ci),
                      computed_root (sorted_StoreInfos ci)).
Proof.
  intros Hne Hcache. unfold Hash. rewrite Hcache.
  destruct (ci_StoreInfos ci) as [|si0 sis] eqn:Hsis; [done|]. simpl.
  destruct (GetStoreProof_nonempty ci EmptyString) as (si & _ & ->);
    [by rewrite Hsis|].
  unfold computed_root.
  by destruct (leaf_hashes (sorted_StoreInfos ci)).
Qed.

Lemma Hash_cached (ci : CommitInfo) :
  ci_StoreInfos ci <> [] -> ci_CommitHash ci <> [] ->
  Hash ci = Returned (ci, ci_CommitHash ci).
Proof.
  intros Hne Hcache. unfold Hash.
  destruct (ci_StoreInfos ci); [done|].
  by destruct (ci_CommitHash ci).
Qed.

(** [Hash] never reaches the panic of [GetStoreProof]. *)
Lemma Hash_returns (ci : CommitInfo) : exists r, Hash ci = Returned r.
Proof.
  unfold Hash. destruct (ci_StoreInfos ci) as [|si0 sis] eqn:Hsis; simpl; [eauto|].
  destruct (ci_CommitHash ci); simpl; [|eauto].
  destruct (GetStoreProof_nonempty ci EmptyString) as (si & _ & ->);
    [by rewrite Hsis|].
  destruct (leaf_hashes (sorted_StoreInfos ci)); eauto.
Qed.

(** C9. [Hash] of a [CommitInfo] without store infos is the nil slice:
    nothing is hashed, [CommitHash] is neither read (whatever it
    holds, the result is nil) nor written (the record is returned as
    it was). *)
Theorem Hash_empty_StoreInfos (ci : CommitInfo) :
  ci_StoreInfos ci = [] -> Hash ci = Returned (ci, []).
Proof. intros Hnil. unfold Hash. by rewrite Hnil. Qed.

(** C1, as the code has it. On a [CommitInfo] with store infos, [Hash]
    with an empty [CommitHash] sorts the store infos, returns the root
    [GetStoreProof] computes for the empty store key and leaves
    [CommitHash] empty: nothing is cached, and the next call computes
    again from the store infos it finds. With a non-empty [CommitHash]
    (set by the owner of the record) [Hash] returns it verbatim and
    leaves the record alone, whatever the store infos are. *)
Theorem Hash_returns_root_without_caching (ci : CommitInfo) :
  ci_StoreInfos ci <> [] ->
  match ci_CommitHash ci with
  | [] =>
      exists ci', Hash ci = Returned (ci', computed_root (sorted_StoreInfos ci))
        /\ ci_StoreInfos ci' = sorted_StoreInfos ci
        /\ ci_CommitHash ci' = []
  | _ :: _ => Hash ci = Returned (ci, ci_CommitHash ci)
  end.
Proof.
  intros Hne. destruct (ci_CommitHash ci) as [|b cache] eqn:Hcache.
  - exists (set_StoreInfos ci (sorted_StoreInfos ci)).
    split; [by apply Hash_computes|]. by split.
  - rewrite <- Hcache. apply Hash_cached; [done|]. by rewrite Hcache.
Qed.

(** C8. Two fresh [CommitInfo] records (empty [CommitHash]) holding
    the same stores with distinct names in different orders hash to
    the same root, and hashing the record again returns that root
    again. *)
Theorem Hash_permutation_invariant (version : Z) (timestamp : Time)
    (sis1 sis2 : list StoreInfo) :
  NoDup (map si_Name sis1) -> sis1 ≡ₚ sis2 ->
  exists ci' root,
    Hash (mkCommitInfo version sis1 timestamp []) = Returned (ci', root)
    /\ Hash (mkCommitInfo version sis2 timestamp []) = Returned (ci', root)
    /\ Hash ci' = Returned (ci', root).
Proof.
  intros Hnd Hperm.
  destruct sis1 as [|si1 sis1].
  { apply Permutation_nil in Hperm as ->.
    exists (mkCommitInfo version [] timestamp []), []. done. }
  assert (sis2 <> []) as Hne2.
  { intros ->. by apply Permutation_nil_r in Hperm. }
  set (sorted := sort_Slice less_Name (si1 :: sis1)).
  assert (sorted <> []) as Hsorted.
  { intros Hnil. by apply sort_Slice_nil_inv in Hnil. }
  exists (mkCommitInfo version sorted timestamp []), (computed_root sorted).
  split; [by rewrite Hash_computes|]. split.
  - rewrite Hash_computes by done.
    unfold sorted_StoreInfos, set_StoreInfos. simpl.
    by rewrite <- (sort_Slice_less_Name_unique _ _ Hnd Hperm).
  - rewrite Hash_computes by done.
    unfold sorted_StoreInfos, set_StoreInfos, sorted. simpl.
    by rewrite (sort_Slice_less_Name_idemp _ Hnd).
Qed.

(** C6, as the code has it. On a [CommitInfo] with store infos
    [GetStoreProof] has no failure of its own on a store key that names
    no store: it selects a leaf named [storeKey] when there is one and
    the leaf at index 0 when no store has that name, and, when every
    leaf hashes, returns the root and the operator of that leaf and no
    error. When a leaf fails to hash it returns the nil root, no
    operator and the error of [LeafHash], whatever the store key. *)
Theorem GetStoreProof_unmatched_name_selects_first (ci : CommitInfo)
    (storeKey : string) :
  ci_StoreInfos ci <> [] ->
  exists index si,
    sorted_StoreInfos ci !! index = Some si
    /\ (si_Name si = storeKey
        \/ index = 0%nat /\ Forall (fun s => si_Name s <> storeKey) (ci_StoreInfos ci))
    /\ GetStoreProof ci storeKey =
         Returned (set_StoreInfos ci (sorted_StoreInfos ci),
           match leaf_hashes (sorted_StoreInfos ci) with
           | Err err => ([], None, Some err)
           | Ok leaves =>
               (fst (ProofFromByteSlices leaves index),
                Some (ConvertCommitmentOp (snd (ProofFromByteSlices leaves index))
                        (list_byte_of_string storeKey) (GetHash si)),
                None)
           end).
Proof.
  intros Hne.
  destruct (GetStoreProof_nonempty ci storeKey Hne) as (si & Hsi & Heq).
  exists (selectIndex storeKey (sorted_StoreInfos ci) 0 0), si.
  split; [done|]. split; [|done].
  destruct (selectIndex_spec storeKey (sorted_StoreInfos ci) 0 0)
    as [[Hidx Hall]|(si' & _ & Hsi' & Hname)].
  - right. split; [done|].
    eapply Permutation_Forall; [|exact Hall]. apply sort_Slice_Permutation.
  - left. rewrite Nat.sub_0_r, Hsi in Hsi'. by injection Hsi' as ->.
Qed.

(** C10. With at least one store info the index [GetStoreProof]
    selects is within the store infos for every store key and the call
    returns; without any, the index expression [ci.StoreInfos[0]]
    panics: no guard, no error. *)
Theorem GetStoreProof_index_bounds (ci : CommitInfo) (storeKey : string) :
  match ci_StoreInfos ci with
  | [] => GetStoreProof ci storeKey = Panicked (IndexOutOfRange 0 0)
  | _ :: _ =>
      (selectIndex storeKey (sorted_StoreInfos ci) 0 0
         < length (sorted_StoreInfos ci))%nat
      /\ exists r, GetStoreProof ci storeKey = Returned r
  end.
Proof.
  destruct (ci_StoreInfos ci) as [|si0 sis] eqn:Hsis.
  - by apply GetStoreProof_empty.
  - assert (ci_StoreInfos ci <> []) as Hne by (by rewrite Hsis).
    destruct (GetStoreProof_nonempty ci storeKey Hne) as (si & Hsi & ->).
    split; [by apply lookup_lt_Some in Hsi|]. eauto.
Qed.
End Hash_facts.

(** *** The properties of [Hash] and [GetStoreProof] on the sample records *)

Lemma Hash_empty_StoreInfos_witness :
  ci_StoreInfos sample_empty_ci = []
  /\ @Hash RunIcs23 RunBuilder sample_empty_ci = Returned (sample_empty_ci, []).
Proof.
  split; [reflexivity|].
  apply (@Hash_empty_StoreInfos RunIcs23 RunBuilder sample_empty_ci). reflexivity.
Defined.

Lemma Hash_returns_root_without_caching_witness :
  ci_StoreInfos sample_ci <> [] /\ ci_StoreInfos sample_hashed_ci <> []
  /\ (exists ci',
        @Hash RunIcs23 RunBuilder sample_ci
          = Returned (ci', @computed_root RunIcs23 RunBuilder (sorted_StoreInfos sample_ci))
        /\ ci_StoreInfos ci' = sorted_StoreInfos sample_ci
        /\ ci_CommitHash ci' = [])
  /\ @Hash RunIcs23 RunBuilder sample_hashed_ci = Returned (sample_hashed_ci, [xca; xfe]).
Proof.
  split; [discriminate|]. split; [discriminate|]. split.
  - apply (@Hash_returns_root_without_caching RunIcs23 RunBuilder sample_ci).
    discriminate.
  - apply (@Hash_returns_root_without_caching RunIcs23 RunBuilder sample_hashed_ci).
    discriminate.
Defined.

(** The claim C1 fails on [sample_ci]: the first [Hash] returns a root
    and leaves [CommitHash] empty, and once the store infos are replaced
    the next [Hash] returns another root. *)
Lemma Hash_does_not_cache :
  ci_StoreInfos sample_ci <> [] /\ ci_CommitHash sample_ci = []
  /\ exists ci' root root',
       @Hash RunIcs23 RunBuilder sample_ci = Returned (ci', root)
       /\ ci_CommitHash ci' <> root
       /\ @Hash RunIcs23 RunBuilder (set_StoreInfos ci' [sample_ibc])
            = Returned (set_StoreInfos ci' [sample_ibc], root')
       /\ root' <> root.
Proof.
  split; [discriminate|]. split; [reflexivity|].
  eexists _, _, _. split; [vm_compute; reflexivity|].
  split; [discriminate|]. split; [vm_compute; reflexivity|]. discriminate.
Defined.

Lemma Hash_permutation_invariant_witness :
  NoDup (map si_Name [sample_bank; sample_auth; sample_ibc])
  /\ [sample_bank; sample_auth; sample_ibc] ≡ₚ [sample_ibc; sample_bank; sample_auth]
  /\ exists ci' root,
       @Hash RunIcs23 RunBuilder
          (mkCommitInfo 7 [sample_bank; sample_auth; sample_ibc] zeroTime []) = Returned (ci', root)
       /\ @Hash RunIcs23 RunBuilder
          (mkCommitInfo 7 [sample_ibc; sample_bank; sample_auth] zeroTime []) = Returned (ci', root)
       /\ @Hash RunIcs23 RunBuilder ci' = Returned (ci', root).
Proof.
  assert (NoDup (map si_Name [sample_bank; sample_auth; sample_ibc])) as Hnd.
  { apply (bool_decide_unpack _). vm_compute. exact I. }
  assert ([sample_bank; sample_auth; sample_ibc]
            ≡ₚ [sample_ibc; sample_bank; sample_auth]) as Hperm.
  { change [sample_ibc; sample_bank; sample_auth]
      with ([sample_ibc] ++ [sample_bank; sample_auth]).
    by rewrite (Permutation_app_comm [sample_ibc]). }
  split; [exact Hnd|]. split; [exact Hperm|].
  exact (@Hash_permutation_invariant RunIcs23 RunBuilder 7 zeroTime _ _ Hnd Hperm).
Defined.

(** C6 as the specification states it fails: [sample_unhashed_ci] has
    stores, none of them named [staking], and [GetStoreProof] returns
    neither a root nor an operator there but the error of the leaf that
    does not hash. *)
Lemma GetStoreProof_unmatched_name_leaf_error :
  ci_StoreInfos sample_unhashed_ci <> []
  /\ Forall (fun si => si_Name si <> "staking"%string)
       (ci_StoreInfos sample_unhashed_ci)
  /\ @GetStoreProof RunIcs23 StrictBuilder sample_unhashed_ci "staking"
       = Returned (set_StoreInfos sample_unhashed_ci
                     (sorted_StoreInfos sample_unhashed_ci),
                   ([], None, Some (LibraryError "leaf needs a value"))).
Proof.
  assert (ci_StoreInfos sample_unhashed_ci <> []) as Hne by discriminate.
  split; [exact Hne|]. split.
  - repeat constructor; discriminate.
  - destruct (@GetStoreProof_nonempty RunIcs23 StrictBuilder
                sample_unhashed_ci "staking" Hne) as (si & _ & ->).
    assert (@leaf_hashes RunIcs23 StrictBuilder (sorted_StoreInfos sample_unhashed_ci)
              = Err (LibraryError "leaf needs a value")) as ->
      by (vm_compute; reflexivity).
    reflexivity.
Qed.

Lemma GetStoreProof_unmatched_name_selects_first_witness :
  ci_StoreInfos sample_ci <> []
  /\ exists index si,
       sorted_StoreInfos sample_ci !! index = Some si
       /\ (si_Name si = "staking"%string
           \/ index = 0%nat
              /\ Forall (fun s => si_Name s <> "staking"%string) (ci_StoreInfos sample_ci))
       /\ exists root op,
            @GetStoreProof RunIcs23 RunBuilder sample_ci "staking"
              = Returned (set_StoreInfos sample_ci (sorted_StoreInfos sample_ci),
                          (root, Some op, None)).
Proof.
  split; [discriminate|].
  destruct (@GetStoreProof_unmatched_name_selects_first RunIcs23 RunBuilder
              sample_ci "staking")
    as (index & si & Hsi & Hsel & Heq); [discriminate|].
  exists index, si. split; [exact Hsi|]. split; [exact Hsel|].
  eexists _, _. exact Heq.
Defined.

(** ** [CommitmentOp.Run] *)

Section Run_facts.
Context `{Ics23}.

(** C4, as the code has it. With two or more arguments [Run] returns
    an error wrapping [ErrInvalidProof] and no root; the error is the
    one on the argument count when the root of the embedded proof can
    be calculated, and the one on the root when it cannot, because the
    root is calculated first. *)
Theorem Run_two_or_more_arguments (op : CommitmentOp) (args : list bytes) :
  (2 <= length args)%nat ->
  Run op args =
    match CommitmentProof_Calculate (op_Proof op) with
    | Err err => Err (InvalidProof_CalculateRoot err)
    | Ok _ => Err (InvalidProof_ArgsLength (length args))
    end
  /\ exists e, Run op args = Err e /\ wraps_ErrInvalidProof e = true.
Proof.
  intros Hlen. unfold Run.
  destruct (CommitmentProof_Calculate (op_Proof op)) as [root|err].
  - destruct args as [|a [|b args]]; simpl in Hlen; [lia..|]. eauto.
  - eauto.
Qed.

(** C5. [Run] calculates the root from the embedded proof alone and
    fails when that fails. With one argument it verifies membership of
    [op.Key] with that value against the calculated root and
    [op.Spec]: on success the result is the calculated root and
    nothing else, on failure an error. Whatever the arguments, a
    result of [Run] is the calculated root alone. *)
Theorem Run_one_argument (op : CommitmentOp) :
  match CommitmentProof_Calculate (op_Proof op) with
  | Err err => forall args, Run op args = Err (InvalidProof_CalculateRoot err)
  | Ok root =>
      (forall value,
         Run op [value] =
           if VerifyMembership (op_Spec op) root (op_Proof op) (op_Key op) value
           then Ok [root]
           else Err (InvalidProof_Existence (op_Key op) value))
      /\ (forall args roots, Run op args = Ok roots -> roots = [root])
  end.
Proof.
  unfold Run.
  destruct (CommitmentProof_Calculate (op_Proof op)) as [root|err]; [|done].
  split.
  - intros value. by destruct (VerifyMembership _ _ _ _ _).
  - intros [|a [|b args]] roots; simpl.
    + destruct (VerifyNonMembership _ _ _ _); simpl; [|done]. by intros [= <-].
    + destruct (VerifyMembership _ _ _ _ _); simpl; [|done]. by intros [= <-].
    + done.
Qed.

Lemma ProofOp_Type (op : CommitmentOp) (env : ProofOp_wire) :
  ProofOp op = Returned env -> po_Type env = op_Type op.
Proof.
  unfold ProofOp. destruct (CommitmentProof_Marshal _); [|done]. by intros [= <-].
Qed.

(** [ProofOp] returns exactly when the proof serializes. *)
Lemma ProofOp_returns (op : CommitmentOp) (bz : bytes) :
  CommitmentProof_Marshal (op_Proof op) = Ok bz ->
  ProofOp op = Returned (mkProofOp (op_Type op) (op_Key op) bz).
Proof. unfold ProofOp. by intros ->. Qed.
End Run_facts.

(** ** [ProofOpFromMap] and the wire envelope *)

Section ProofOpFromMap_facts.
Context `{StoreInternals}.

Lemma ProofOpFromMap_Type (cmap : gmap string bytes) (storeName : string)
    (env : ProofOp_wire) :
  ProofOpFromMap cmap storeName = Returned (env, None) ->
  po_Type env = ProofOpSimpleMerkleCommitment.
Proof.
  unfold ProofOpFromMap.
  destruct (ProofsFromMap cmap) as [[[root proofs] keys]|p]; [|done].
  destruct (proofs !! storeName) as [proof|]; [|done].
  destruct (ConvertExistenceProof _ _ _) as [existProof|err]; [|done].
  destruct (ProofOp _) as [ret|p] eqn:Hret; [|done].
  intros [= <-]. by apply ProofOp_Type in Hret.
Qed.

(** C3, as the code has it. Every wire envelope produced by
    [ProofOpFromMap], or by [ProofOp] on an operator built by one of
    the three constructors, carries one of the type strings
    ["ics23:iavl"], ["ics23:simple"], ["ics23:smt"]. *)
Theorem produced_envelope_Type (env : ProofOp_wire) :
  produced_envelope env -> po_Type env ∈ proof_op_types.
Proof.
  unfold proof_op_types.
  intros [key proof env' Hret|key proof env' Hret|key proof env' Hret
         |cmap storeName env' Hret].
  - apply ProofOp_Type in Hret as ->. simpl. set_solver.
  - apply ProofOp_Type in Hret as ->. simpl. set_solver.
  - apply ProofOp_Type in Hret as ->. simpl. set_solver.
  - apply ProofOpFromMap_Type in Hret as ->. set_solver.
Qed.

(** A panic of [ProofsFromMap] is the outcome of [ProofOpFromMap],
    whatever the store name. *)
Lemma ProofOpFromMap_panics (cmap : gmap string bytes) (storeName : string)
    (p : panic) :
  ProofsFromMap cmap = Panicked p -> ProofOpFromMap cmap storeName = Panicked p.
Proof. unfold ProofOpFromMap. by intros ->. Qed.
End ProofOpFromMap_facts.

(** The builder of the specification keeps a proof for the keys of the
    map and for nothing else. *)
Lemma map_proofs_dom (H : bytes -> bytes) (cmap : gmap string bytes) :
  dom (snd (fst (map_proofs H cmap))) ⊆ dom cmap.
Proof.
  intros k Hk. apply elem_of_dom. apply elem_of_dom in Hk as [proof Hproof].
  unfold map_proofs in Hproof. simpl in Hproof.
  apply elem_of_list_to_map_2 in Hproof.
  apply elem_of_lookup_imap in Hproof as (i & [k' v] & [= -> _] & Hi).
  apply list_elem_of_lookup_2 in Hi.
  rewrite (sort_Slice_Permutation less_key (map_to_list cmap)) in Hi.
  apply elem_of_map_to_list in Hi. eauto.
Qed.

Lemma map_proofs_lookup_None (H : bytes -> bytes) (cmap : gmap string bytes)
    (storeName : string) :
  cmap !! storeName = None -> snd (fst (map_proofs H cmap)) !! storeName = None.
Proof.
  intros Hname. apply not_elem_of_dom. intros Hin.
  apply map_proofs_dom in Hin. by apply not_elem_of_dom in Hname.
Qed.

Lemma spec_ProofsFromMap_dom (H : bytes -> bytes) (cmap : gmap string bytes) :
  dom (@proofs_of (SpecIcs23 H) (SpecBuilder H) cmap) ⊆ dom cmap.
Proof.
  unfold proofs_of. simpl. unfold spec_ProofsFromMap.
  destruct (cmap !! EmptyString); [set_solver|].
  pose proof (map_proofs_dom H cmap) as Hdom.
  by destruct (map_proofs H cmap) as [[root proofs] keys].
Qed.

(** C7, as the code has it. For every map and every store name that is
    not a key of the map: when the map holds no hash under the empty
    store name, [ProofOpFromMap] returns the error on the unregistered
    store name (and the zero envelope); when it holds one,
    [ProofsFromMap] panics ([key is nil]) and so does
    [ProofOpFromMap]. *)
Theorem ProofOpFromMap_unknown_store_name (H : bytes -> bytes)
    (cmap : gmap string bytes) (storeName : string) :
  cmap !! storeName = None ->
  @ProofOpFromMap (SpecIcs23 H) (SpecBuilder H) cmap storeName
    = match cmap !! EmptyString with
      | Some _ => Panicked (PanicString "key is nil")
      | None => Returned (zeroProofOp, Some (NotRegisteredStoreName storeName))
      end.
Proof.
  intros Hname. apply (map_proofs_lookup_None H) in Hname.
  unfold ProofOpFromMap. simpl. unfold spec_ProofsFromMap.
  destruct (cmap !! EmptyString) as [hash|]; [done|].
  destruct (map_proofs H cmap) as [[root proofs] keys]. simpl in Hname.
  by rewrite Hname.
Qed.

(** C7 as the specification states it fails: no key of
    [sample_cmap_empty_key] is the store name [c], and [ProofOpFromMap]
    does not return an error there, it panics. *)
Lemma ProofOpFromMap_empty_key_panics :
  sample_cmap_empty_key !! "c"%string = None
  /\ @ProofOpFromMap RunIcs23 RunBuilder sample_cmap_empty_key "c"
       = Panicked (PanicString "key is nil")
  /\ @ProofOpFromMap RunIcs23 RunBuilder sample_cmap_empty_key "c"
       <> Returned (zeroProofOp, Some (NotRegisteredStoreName "c")).
Proof.
  assert (@ProofOpFromMap RunIcs23 RunBuilder sample_cmap_empty_key "c"
            = Panicked (PanicString "key is nil")) as Hpanic.
  { apply ProofOpFromMap_panics. vm_compute. reflexivity. }
  split; [vm_compute; reflexivity|]. split; [exact Hpanic|].
  rewrite Hpanic. discriminate.
Qed.


(** *** The properties of [Run], [ProofOp] and [ProofOpFromMap] on the
    sample inputs *)

Lemma Run_two_or_more_arguments_witness :
  (2 <= length [[x11; x11]; [x22]])%nat
  /\ @Run RunIcs23 sample_op [[x11; x11]; [x22]] = Err (InvalidProof_ArgsLength 2).
Proof.
  split; [simpl; lia|].
  apply (@Run_two_or_more_arguments RunIcs23 sample_op [[x11; x11]; [x22]]).
  simpl; lia.
Defined.

(** The claim C4 fails on [sample_bad_op]: called with two arguments it
    returns the error on the root, not the one on the argument count. *)
Lemma Run_two_arguments_root_error :
  (2 <= length [[x11; x11]; [x22]])%nat
  /\ @Run RunIcs23 sample_bad_op [[x11; x11]; [x22]]
       = Err (InvalidProof_CalculateRoot (LibraryError "unrecognized proof type"))
  /\ forall n, @Run RunIcs23 sample_bad_op [[x11; x11]; [x22]]
                 <> Err (InvalidProof_ArgsLength n).
Proof.
  split; [simpl; lia|]. split; [reflexivity|]. intros n. discriminate.
Defined.

Lemma Run_one_argument_witness :
  exists root,
    @CommitmentProof_Calculate RunIcs23 (op_Proof sample_op) = Ok root
    /\ @Run RunIcs23 sample_op [[x11; x11]] = Ok [root]
    /\ @Run RunIcs23 sample_op [[x22]]
         = Err (InvalidProof_Existence (list_byte_of_string "bank") [x22]).
Proof.
  pose proof (@Run_one_argument RunIcs23 sample_op) as Hrun.
  destruct (@CommitmentProof_Calculate RunIcs23 (op_Proof sample_op))
    as [root|err] eqn:Hroot; [|discriminate].
  destruct Hrun as [Hone _].
  exists root. split; [reflexivity|].
  injection Hroot as <-.
  split; [exact (Hone [x11; x11])|exact (Hone [x22])].
Defined.

Lemma produced_envelope_Type_witness :
  exists env,
    @ProofOpFromMap RunIcs23 RunBuilder sample_cmap "b" = Returned (env, None)
    /\ po_Type env ∈ proof_op_types.
Proof.
  eexists. split; [vm_compute; reflexivity|].
  apply (@produced_envelope_Type RunIcs23 RunBuilder).
  apply (produced_from_map sample_cmap "b"). vm_compute. reflexivity.
Defined.

(** The claim C3 fails on the envelope of store [b] of [sample_cmap]:
    its type string is ["ics23:simple"], none of the three strings the
    claim lists. *)
Lemma produced_envelope_Type_not_listed :
  exists env,
    @produced_envelope RunIcs23 RunBuilder env
    /\ po_Type env = "ics23:simple"%string
    /\ po_Type env ∉ spec_proof_op_types.
Proof.
  eexists. split.
  { apply (produced_from_map sample_cmap "b"). vm_compute. reflexivity. }
  split; [reflexivity|]. simpl. unfold spec_proof_op_types. intros Hin.
  repeat (apply elem_of_cons in Hin as [Hin|Hin]; [discriminate|]).
  by apply elem_of_nil in Hin.
Defined.

Lemma ProofOpFromMap_unknown_store_name_witness :
  sample_cmap !! "c"%string = None
  /\ @ProofOpFromMap RunIcs23 RunBuilder sample_cmap "c"
       = Returned (zeroProofOp, Some (NotRegisteredStoreName "c")).
Proof.
  assert (sample_cmap !! "c"%string = None) as Hname by (vm_compute; reflexivity).
  split; [exact Hname|].
  exact (ProofOpFromMap_unknown_store_name fnv1a sample_cmap "c" Hname).
Defined.

Lemma GetStoreProof_index_bounds_witness :
  @GetStoreProof RunIcs23 RunBuilder zeroCommitInfo "bank" = Panicked (IndexOutOfRange 0 0)
  /\ (@selectIndex "bank" (sorted_StoreInfos sample_ci) 0 0
        < length (sorted_StoreInfos sample_ci))%nat.
Proof.
  split.
  - exact (@GetStoreProof_index_bounds RunIcs23 RunBuilder zeroCommitInfo "bank").
  - exact (proj1 (@GetStoreProof_index_bounds RunIcs23 RunBuilder sample_ci "bank")).
Defined.


(** ** The codec: [Unmarshal] after [Marshal] *)

Lemma lor_disjoint_add (acc v s : Z) :
  0 <= s -> 0 <= acc < 2 ^ s -> 0 <= v ->
  Z.lor acc (Z.shiftl v s) = acc + v * 2 ^ s.
Proof.
  intros Hs Hacc Hv.
  rewrite Z.shiftl_mul_pow2 by lia.
  assert (Z.land acc (v * 2 ^ s) = 0) as Hdisj.
  { apply Z.bits_inj'. intros n Hn. rewrite Z.land_spec, Z.bits_0.
    destruct (Z.lt_ge_cases n s) as [Hlt|Hge].
    - rewrite (Z.mul_pow2_bits_low v s n) by lia. apply andb_false_r.
    - destruct (Z.eq_dec acc 0) as [->|Hnz]; [by rewrite Z.bits_0|].
      rewrite (Z.bits_above_log2 acc n); [reflexivity|lia|].
      apply Z.log2_lt_pow2; [lia|].
      apply Z.lt_le_trans with (2 ^ s); [lia|]. apply Z.pow_le_mono_r; lia. }
  rewrite <- Z.lxor_lor by exact Hdisj. symmetry. apply Z.add_nocarry_lxor. exact Hdisj.
Qed.

Lemma lor_128_mod_256 (y : Z) : Z.lor y 128 mod 256 = y mod 128 + 128.
Proof.
  transitivity (Z.lor (y mod 2 ^ 7) (Z.shiftl 1 7)).
  2: { rewrite lor_disjoint_add; [|lia| |lia].
       - change (2 ^ 7) with 128. lia.
       - apply Z.mod_pos_bound. lia. }
  change 256 with (2 ^ 8). rewrite <- !Z.land_ones by lia.
  apply Z.bits_inj'. intros n Hn.
  rewrite Z.land_spec, !Z.lor_spec, Z.land_spec.
  rewrite !Z.testbit_ones_nonneg by lia.
  change 128 with (2 ^ 7). rewrite Z.shiftl_1_l.
  rewrite !Z.pow2_bits_eqb by lia.
  destruct (Z.ltb_spec n 8), (Z.ltb_spec n 7), (Z.eqb_spec 7 n); try lia;
    rewrite ?andb_true_r, ?andb_false_r, ?orb_false_r, ?orb_true_r; reflexivity.
Qed.

Lemma land_127 (r : Z) : 0 <= r < 128 -> Z.land (r + 128) 127 = r.
Proof.
  intros Hr. change 127 with (Z.ones 7). rewrite Z.land_ones by lia.
  change (2 ^ 7) with 128.
  replace (r + 128) with (r + 1 * 128) by lia.
  rewrite Z_mod_plus_full. apply Z.mod_small. lia.
Qed.

Lemma Z_of_byte_of_Z (z : Z) : Z_of_byte (byte_of_Z z) = z mod 256.
Proof.
  unfold Z_of_byte, byte_of_Z.
  assert (0 <= z mod 256 < 256) as Hz by (apply Z.mod_pos_bound; lia).
  destruct (Byte.of_N (Z.to_N (z mod 256))) as [b|] eqn:Hb.
  - apply Byte.to_of_N in Hb. rewrite Hb. lia.
  - apply Byte.of_N_None_iff in Hb. lia.
Qed.

Lemma wrap_uint64_small (z : Z) : 0 <= z < 2 ^ 64 -> wrap_uint64 z = z.
Proof. intros Hz. unfold wrap_uint64. by apply Z.mod_small. Qed.

Lemma wrap_int64_small (z : Z) : - 2 ^ 63 <= z < 2 ^ 63 -> wrap_int64 z = z.
Proof. intros Hz. unfold wrap_int64. rewrite Z.mod_small; lia. Qed.

(** Decoding what [putUvarint] wrote, from byte [i] on with [acc] read
    so far. *)
Lemma uvarint_from_putUvarint (fuel : nat) (y : Z) (i : nat) (acc : Z) (rest : bytes) :
  (i + fuel = 9)%nat ->
  0 <= y < 2 ^ (64 - 7 * Z.of_nat i) ->
  0 <= acc < 2 ^ (7 * Z.of_nat i) ->
  uvarint_from (putUvarint fuel y ++ rest) i acc (7 * Z.of_nat i)
    = (acc + y * 2 ^ (7 * Z.of_nat i),
       Z.of_nat i + Z.of_nat (length (putUvarint fuel y))).
Proof.
  revert y i acc. induction fuel as [|fuel IH]; intros y i acc Hi Hy Hacc.
  - cbn [putUvarint app uvarint_from length].
    assert ((i =? MaxVarintLen64)%nat = false) as ->.
    { apply Nat.eqb_neq. unfold MaxVarintLen64. lia. }
    assert (2 ^ (64 - 7 * Z.of_nat i) = 2) as Hy2.
    { replace (64 - 7 * Z.of_nat i) with 1 by lia. done. }
    rewrite Z_of_byte_of_Z, Z.mod_small by lia.
    assert ((y <? 128) = true) as -> by lia.
    assert ((1 <? y) = false) as -> by lia.
    rewrite andb_false_r.
    assert (0 < 2 ^ (7 * Z.of_nat i)) as Hpow by (apply Z.pow_pos_nonneg; lia).
    assert (2 * 2 ^ (7 * Z.of_nat i) = 2 ^ 64) as Hsplit.
    { replace (7 * Z.of_nat i) with 63 by lia. done. }
    rewrite wrap_uint64_small by (rewrite Z.shiftl_mul_pow2 by lia; nia).
    rewrite lor_disjoint_add by lia. f_equal; lia.
  - cbn [putUvarint].
    assert (0 < 2 ^ (7 * Z.of_nat i)) as Hpow by (apply Z.pow_pos_nonneg; lia).
    assert (2 ^ (64 - 7 * Z.of_nat i) * 2 ^ (7 * Z.of_nat i) = 2 ^ 64) as Hsplit.
    { rewrite <- Z.pow_add_r by lia. f_equal. lia. }
    assert ((i =? MaxVarintLen64)%nat = false) as Hmax.
    { apply Nat.eqb_neq. unfold MaxVarintLen64. lia. }
    destruct (Z.leb_spec 128 y) as [Hbig|Hsmall]; cbn [app uvarint_from];
      rewrite Hmax, Z_of_byte_of_Z.
    + rewrite lor_128_mod_256.
      assert (0 <= y mod 128 < 128) as Hr by (apply Z.mod_pos_bound; lia).
      assert ((y mod 128 + 128 <? 128) = false) as -> by lia.
      rewrite land_127 by lia.
      assert (y mod 128 * 2 ^ (7 * Z.of_nat i) < 128 * 2 ^ (7 * Z.of_nat i)) by nia.
      assert (128 * 2 ^ (7 * Z.of_nat i) <= 2 ^ 64).
      { rewrite <- Hsplit. apply Z.mul_le_mono_nonneg_r; [lia|].
        change 128 with (2 ^ 7). apply Z.pow_le_mono_r; lia. }
      rewrite wrap_uint64_small by (rewrite Z.shiftl_mul_pow2 by lia; nia).
      rewrite lor_disjoint_add by lia.
      replace (7 * Z.of_nat i + 7) with (7 * Z.of_nat (S i)) by lia.
      assert (2 ^ (7 * Z.of_nat (S i)) = 128 * 2 ^ (7 * Z.of_nat i)) as Hnext.
      { replace (7 * Z.of_nat (S i)) with (7 + 7 * Z.of_nat i) by lia.
        rewrite Z.pow_add_r by lia. done. }
      rewrite IH; [| lia | | rewrite Hnext; nia].
      * rewrite Z.shiftr_div_pow2 by lia. change (2 ^ 7) with 128.
        rewrite Hnext. f_equal.
        -- pose proof (Z.div_mod y 128). nia.
        -- rewrite !Nat2Z.inj_succ. simpl length. lia.
      * rewrite Z.shiftr_div_pow2 by lia. change (2 ^ 7) with 128.
        split; [apply Z.div_pos; lia|].
        apply Z.div_lt_upper_bound; [lia|].
        replace (64 - 7 * Z.of_nat (S i)) with (64 - 7 * Z.of_nat i - 7) by lia.
        assert (2 ^ (64 - 7 * Z.of_nat i) = 128 * 2 ^ (64 - 7 * Z.of_nat i - 7)) as <-.
        { change 128 with (2 ^ 7). rewrite <- Z.pow_add_r by lia. f_equal. lia. }
        lia.
    + rewrite Z.mod_small by lia.
      assert ((y <? 128) = true) as -> by lia.
      assert ((i =? MaxVarintLen64 - 1)%nat = false) as ->.
      { apply Nat.eqb_neq. unfold MaxVarintLen64. lia. }
      cbn [andb].
      rewrite wrap_uint64_small by (rewrite Z.shiftl_mul_pow2 by lia; nia).
      rewrite lor_disjoint_add by lia. simpl length. f_equal; lia.
Qed.

Lemma putUvarint_length_pos (fuel : nat) (x : Z) : (0 < length (putUvarint fuel x))%nat.
Proof. destruct fuel; simpl; [lia|]. destruct (128 <=? x); simpl; lia. Qed.

Lemma Uvarint_PutUvarint (x : Z) (rest : bytes) :
  0 <= x < 2 ^ 64 ->
  Uvarint (PutUvarint x ++ rest) = (x, Z.of_nat (length (PutUvarint x))).
Proof.
  intros Hx. unfold Uvarint, PutUvarint.
  pose proof (uvarint_from_putUvarint (MaxVarintLen64 - 1) x 0 0 rest) as Heq.
  change (7 * Z.of_nat 0) with 0 in Heq. rewrite Heq; [|done|done|done].
  f_equal. change (2 ^ 0) with 1. lia.
Qed.

Lemma DecodeUvarint_PutUvarint (x : Z) (rest : bytes) :
  0 <= x < 2 ^ 64 ->
  DecodeUvarint (PutUvarint x ++ rest) = Ok (x, length (PutUvarint x)).
Proof.
  intros Hx. unfold DecodeUvarint. rewrite Uvarint_PutUvarint by done.
  pose proof (putUvarint_length_pos (MaxVarintLen64 - 1) x) as Hpos.
  fold (PutUvarint x) in Hpos.
  assert ((Z.of_nat (length (PutUvarint x)) =? 0) = false) as -> by lia.
  assert ((Z.of_nat (length (PutUvarint x)) <? 0) = false) as -> by lia.
  by rewrite Nat2Z.id.
Qed.

Lemma DecodeVarint_PutVarint (x : Z) (rest : bytes) :
  - 2 ^ 63 <= x < 2 ^ 63 ->
  DecodeVarint (PutVarint x ++ rest) = Ok (x, length (PutVarint x)).
Proof.
  intros Hx. unfold DecodeVarint, PutVarint.
  set (ux := wrap_uint64 (Z.shiftl (wrap_uint64 x) 1)).
  set (zz := if x <? 0 then 2 ^ 64 - 1 - ux else ux).
  assert (zz = if x <? 0 then - 2 * x - 1 else 2 * x) as Hzz.
  { unfold zz, ux, wrap_uint64. rewrite Z.shiftl_mul_pow2 by lia.
    change (2 ^ 1) with 2. destruct (Z.ltb_spec x 0).
    - replace (x mod 2 ^ 64) with (x + 2 ^ 64)
        by (apply Z.mod_unique with (-1); lia).
      replace ((x + 2 ^ 64) * 2 mod 2 ^ 64) with (2 * x + 2 ^ 64)
        by (apply Z.mod_unique with 1; lia).
      lia.
    - rewrite (Z.mod_small x) by lia. rewrite Z.mod_small; lia. }
  assert (0 <= zz < 2 ^ 64) as Hrange by (rewrite Hzz; destruct (x <? 0) eqn:E; lia).
  rewrite DecodeUvarint_PutUvarint by done.
  do 2 f_equal. rewrite Hzz. rewrite Z.bit0_odd, Z.shiftr_div_pow2 by lia.
  change (2 ^ 1) with 2. destruct (Z.ltb_spec x 0).
  - replace (- 2 * x - 1) with (1 + 2 * (- x - 1)) by lia.
    rewrite Z.odd_add_mul_2. simpl Z.odd.
    replace (1 + 2 * (- x - 1)) with (1 + (- x - 1) * 2) by lia.
    rewrite Z.div_add by lia. change (1 / 2) with 0.
    rewrite Z.add_0_l. unfold Z.lnot, Z.pred. lia.
  - replace (2 * x) with (0 + 2 * x) by lia. rewrite Z.odd_add_mul_2. simpl Z.odd.
    replace (0 + 2 * x) with (x * 2) by lia. by rewrite Z.div_mul.
Qed.

Lemma quot_rem_nanos (sec ns : Z) :
  0 <= ns < 1000000000 ->
  let n := sec * 1000000000 + ns in
  if (n <? 0) && (0 <? ns)
  then Z.quot n 1000000000 = sec + 1 /\ Z.rem n 1000000000 = ns - 1000000000
  else Z.quot n 1000000000 = sec /\ Z.rem n 1000000000 = ns.
Proof.
  intros Hns n.
  destruct (Z.ltb_spec n 0), (Z.ltb_spec 0 ns); simpl;
    unfold n in *; Z.quot_rem_to_equations; nia.
Qed.

Lemma Unix_UnixNano (t : Time) :
  valid_Time t -> fits_UnixNano t ->
  Unix (Z.quot (UnixNano t) Second) (Z.rem (UnixNano t) Second) = t.
Proof.
  destruct t as [sec ns]. unfold valid_Time, fits_UnixNano, UnixNano, Unix, Second.
  simpl. intros Hns Hfits. rewrite wrap_int64_small by lia.
  pose proof (quot_rem_nanos sec ns Hns) as Hqr. simpl in Hqr.
  destruct (Z.ltb_spec (sec * 1000000000 + ns) 0) as [Hn|Hn],
           (Z.ltb_spec 0 ns) as [Hpos|Hzero]; simpl in Hqr;
    destruct Hqr as [-> ->].
  - assert ((ns - 1000000000 <? 0) = true) as -> by lia. simpl.
    assert (Z.quot (ns - 1000000000) 1000000000 = 0) as ->.
    { Z.quot_rem_to_equations. nia. }
    rewrite Z.add_0_r, Z.mul_0_l, Z.sub_0_r.
    rewrite (wrap_int64_small (ns - 1000000000)) by lia.
    rewrite (wrap_int64_small (sec + 1)) by lia.
    assert ((ns - 1000000000 <? 0) = true) as -> by lia.
    rewrite !wrap_int64_small by lia. f_equal; lia.
  - assert ((ns <? 0) = false) as -> by lia.
    assert ((1000000000 <=? ns) = false) as -> by lia. done.
  - assert ((ns <? 0) = false) as -> by lia.
    assert ((1000000000 <=? ns) = false) as -> by lia. done.
  - assert ((ns <? 0) = false) as -> by lia.
    assert ((1000000000 <=? ns) = false) as -> by lia. done.
Qed.

Lemma EncodeBytes_eq (w bz : bytes) : EncodeBytes w bz = Ok (w ++ encoded_bytes bz).
Proof. unfold EncodeBytes, EncodeUvarint, encoded_bytes. by rewrite app_assoc. Qed.

Lemma DecodeBytes_encoded_bytes (bz rest : bytes) :
  Z.of_nat (length bz) < 2 ^ 63 - 1 ->
  exists n, DecodeBytes (encoded_bytes bz ++ rest) = Ok (bz, n)
    /\ drop n (encoded_bytes bz ++ rest) = rest.
Proof.
  intros Hlen. unfold DecodeBytes, encoded_bytes.
  set (prefix := PutUvarint (Z.of_nat (length bz))).
  exists (length prefix + length bz)%nat.
  rewrite <- !app_assoc.
  unfold prefix at 1. rewrite DecodeUvarint_PutUvarint by lia. fold prefix.
  assert ((2 ^ 63 - 1 <=? Z.of_nat (length bz)) = false) as -> by lia.
  rewrite Nat2Z.id.
  assert ((length (prefix ++ bz ++ rest) <? length prefix + length bz)%nat = false) as ->.
  { apply Nat.ltb_ge. rewrite !length_app. lia. }
  rewrite drop_app_length, take_app_length. split; [done|].
  rewrite app_assoc, drop_app_length'; [done|]. by rewrite length_app.
Qed.

Lemma marshalStoreInfos_eq (sis : list StoreInfo) (buf : bytes) :
  marshalStoreInfos sis buf = Ok (buf ++ concat (map encoded_StoreInfo sis)).
Proof.
  revert buf. induction sis as [|si sis IH]; intros buf;
    cbn [marshalStoreInfos map concat].
  - by rewrite app_nil_r.
  - rewrite !EncodeBytes_eq, IH. unfold encoded_StoreInfo, GetHash.
    by rewrite <- !app_assoc.
Qed.

Lemma list_byte_of_string_length (s : string) :
  length (list_byte_of_string s) = String.length s.
Proof.
  unfold list_byte_of_string. rewrite length_map.
  induction s as [|c s IH]; simpl; [done|]. by rewrite IH.
Qed.

(** The loop of [Unmarshal] over the encoded store infos [sis], with
    [done] decoded so far. *)
Lemma unmarshalStoreInfos_encoded (sis done : list StoreInfo) (ci : CommitInfo)
    (rest : bytes) :
  Forall (fun si =>
    Z.of_nat (String.length (si_Name si)) < 2 ^ 63 - 1
    /\ Z.of_nat (length (GetHash si)) < 2 ^ 63 - 1) sis ->
  ci_StoreInfos ci = done ++ replicate (length sis) zeroStoreInfo ->
  unmarshalStoreInfos (length sis) (length done) ci
      (concat (map encoded_StoreInfo sis) ++ rest)
    = (set_StoreInfos ci (done ++ map (decoded_StoreInfo (ci_Version ci)) sis), None).
Proof.
  revert done ci. induction sis as [|si sis IH]; intros done ci Hwf Hci.
  - simpl in *. rewrite app_nil_r in *. rewrite <- Hci. by destruct ci.
  - apply Forall_cons in Hwf as [[Hname Hhash] Hwf].
    cbn [length map concat unmarshalStoreInfos].
    rewrite <- app_assoc.
    assert (encoded_StoreInfo si ++ concat (map encoded_StoreInfo sis) ++ rest
            = encoded_bytes (list_byte_of_string (si_Name si))
              ++ encoded_bytes (GetHash si)
              ++ concat (map encoded_StoreInfo sis) ++ rest) as ->.
    { unfold encoded_StoreInfo. by rewrite <- app_assoc. }
    destruct (DecodeBytes_encoded_bytes (list_byte_of_string (si_Name si))
                (encoded_bytes (GetHash si) ++ concat (map encoded_StoreInfo sis) ++ rest))
      as (n1 & Hdec1 & Hdrop1); [by rewrite list_byte_of_string_length|].
    destruct (DecodeBytes_encoded_bytes (GetHash si)
                (concat (map encoded_StoreInfo sis) ++ rest))
      as (n2 & Hdec2 & Hdrop2); [done|].
    rewrite Hdec1. cbv beta iota zeta. rewrite Hdrop1, Hdec2.
    cbv beta iota zeta. rewrite Hdrop2.
    rewrite string_of_list_byte_of_string.
    rewrite Hci. cbn [ci_StoreInfos set_StoreInfos ci_Version].
    rewrite alter_app_r_alt, Nat.sub_diag by lia. cbn [replicate alter list_alter].
    rewrite alter_app_r_alt, Nat.sub_diag by lia. cbn [alter list_alter si_Name si_CommitID].
    replace (S (length done)) with (length (done ++ [decoded_StoreInfo (ci_Version ci) si]))
      by (rewrite length_app; simpl; lia).
    rewrite IH; [|done|].
    + cbn [set_StoreInfos ci_Version ci_Timestamp ci_CommitHash].
      by rewrite <- app_assoc.
    + cbn [ci_StoreInfos]. by rewrite <- app_assoc.
Qed.

(** C2, as the code has it. For every [CommitInfo] whose timestamp has
    a Unix time in nanoseconds that fits an [int64], [Marshal] succeeds
    and [Unmarshal] of its bytes succeeds and rebuilds the version, the
    timestamp and the store infos in order, each with its name and hash
    and with the version of the aggregate as its commit id version;
    [CommitHash] is not encoded and the receiver keeps its own. *)
Theorem Unmarshal_Marshal (ci receiver : CommitInfo) :
  well_typed ci ->
  valid_Time (ci_Timestamp ci) ->
  fits_UnixNano (ci_Timestamp ci) ->
  exists bz,
    Marshal ci = Ok bz
    /\ Unmarshal receiver bz =
         (mkCommitInfo (ci_Version ci)
            (map (decoded_StoreInfo (ci_Version ci)) (ci_StoreInfos ci))
            (ci_Timestamp ci)
            (ci_CommitHash receiver), None).
Proof.
  intros (Hversion & Hcount & Hwf) Hvalid Hfits.
  set (count := Z.of_nat (length (ci_StoreInfos ci))).
  exists (PutUvarint (ci_Version ci) ++ PutVarint (UnixNano (ci_Timestamp ci))
          ++ PutUvarint count ++ concat (map encoded_StoreInfo (ci_StoreInfos ci))).
  split.
  - unfold Marshal, EncodeUvarint, EncodeVarint.
    rewrite marshalStoreInfos_eq, wrap_uint64_small by (fold count; lia).
    fold count. by rewrite <- !app_assoc.
  - assert (UnixNano (ci_Timestamp ci)
            = unixSec (ci_Timestamp ci) * 1000000000 + nsec (ci_Timestamp ci)) as Hnano.
    { unfold UnixNano. by apply wrap_int64_small. }
    unfold Unmarshal.
    rewrite DecodeUvarint_PutUvarint, drop_app_length by done.
    rewrite DecodeVarint_PutVarint, drop_app_length by (rewrite Hnano; done).
    rewrite Unix_UnixNano by done.
    rewrite DecodeUvarint_PutUvarint, drop_app_length by (unfold count; lia).
    rewrite wrap_int64_small by (unfold count; lia).
    unfold count. rewrite Nat2Z.id.
    pose proof (unmarshalStoreInfos_encoded (ci_StoreInfos ci) []
      (set_StoreInfos (set_Timestamp (set_Version receiver (ci_Version ci)) (ci_Timestamp ci))
         (replicate (length (ci_StoreInfos ci)) zeroStoreInfo)) [] Hwf eq_refl) as Hloop.
    rewrite app_nil_r in Hloop. simpl length in Hloop. by rewrite Hloop.
Qed.

Lemma Unmarshal_Marshal_witness :
  well_typed sample_codec_ci
  /\ valid_Time (ci_Timestamp sample_codec_ci)
  /\ fits_UnixNano (ci_Timestamp sample_codec_ci)
  /\ exists bz,
       Marshal sample_codec_ci = Ok bz
       /\ Unmarshal zeroCommitInfo bz =
            (mkCommitInfo 7
               [mkStoreInfo "x" (mkCommitID 7 [x01; x02]);
                mkStoreInfo "bank" (mkCommitID 7 [x11; x11])]
               (mkTime 1700000000 5) [], None).
Proof.
  assert (well_typed sample_codec_ci) as Htyped.
  { unfold well_typed. simpl. split; [lia|]. split; [lia|].
    repeat constructor; simpl; lia. }
  assert (valid_Time (ci_Timestamp sample_codec_ci)) as Hvalid
    by (unfold valid_Time; simpl; lia).
  assert (fits_UnixNano (ci_Timestamp sample_codec_ci)) as Hfits
    by (unfold fits_UnixNano; simpl; lia).
  split; [exact Htyped|]. split; [exact Hvalid|]. split; [exact Hfits|].
  exact (Unmarshal_Marshal sample_codec_ci zeroCommitInfo Htyped Hvalid Hfits).
Defined.

(** The claim C2 fails on the zero value [CommitInfo{}]: the Unix time of
    the zero [Time] in nanoseconds does not fit an [int64], and decoding
    its encoding rebuilds August 30, 1754, 22:43:41.128654848 UTC. *)
Lemma Unmarshal_Marshal_zero_Timestamp :
  exists bz ci',
    Marshal zeroCommitInfo = Ok bz
    /\ Unmarshal zeroCommitInfo bz = (ci', None)
    /\ ci_Timestamp ci' = mkTime (-6795364579) 128654848
    /\ ci_Timestamp ci' <> ci_Timestamp zeroCommitInfo.
Proof.
  eexists _, _. split; [vm_compute; reflexivity|].
  split; [vm_compute; reflexivity|]. split; [reflexivity|]. discriminate.
Defined.

(** ** The concrete scenarios of the specification, for every hash [H] *)

(** Scenario 1: stores [bank] and [auth] hash in the order [auth],
    [bank]. *)
Example Hash_two_stores (H : bytes -> bytes) :
  @Hash (SpecIcs23 H) (SpecBuilder H) sample_ci
    = Returned (set_StoreInfos sample_ci [sample_auth; sample_bank],
        inner_hash H (leaf_hash H (list_byte_of_string "auth" ++ [x22]))
                     (leaf_hash H (list_byte_of_string "bank" ++ [x11; x11]))).
Proof. reflexivity. Qed.

(** Scenario 2: the root of a single store is its leaf hash. *)
Example Hash_single_store (H : bytes -> bytes) :
  @Hash (SpecIcs23 H) (SpecBuilder H) (mkCommitInfo 7 [sample_ibc] zeroTime [])
    = Returned (mkCommitInfo 7 [sample_ibc] zeroTime [],
                leaf_hash H (list_byte_of_string "ibc" ++ [x33])).
Proof. reflexivity. Qed.

(** Scenario 4: the operator [GetStoreProof] returns for [bank] runs to
    the root with the hash of [bank], and fails with another value and
    with no value. *)
Example GetStoreProof_bank_runs :
  exists ci' root,
    @GetStoreProof RunIcs23 RunBuilder sample_ci "bank"
      = Returned (ci', (root, Some sample_op, None))
    /\ @Hash RunIcs23 RunBuilder sample_ci = Returned (ci', root)
    /\ @Run RunIcs23 sample_op [[x11; x11]] = Ok [root]
    /\ @Run RunIcs23 sample_op [[x22]]
         = Err (InvalidProof_Existence (list_byte_of_string "bank") [x22])
    /\ @Run RunIcs23 sample_op []
         = Err (InvalidProof_Absence (list_byte_of_string "bank")).
Proof. eexists _, _. repeat split; vm_compute; reflexivity. Qed.

(** ** [GetStoreCommitID] and the in-place sort *)

Lemma GetStoreCommitID_from_missing (sis : list StoreInfo) (storeKey : string) :
  Forall (fun si => si_Name si <> storeKey) sis ->
  GetStoreCommitID_from sis storeKey = zeroCommitID.
Proof.
  induction 1 as [|si sis Hsi _ IH]; simpl; [done|].
  by destruct (String.eqb_spec (si_Name si) storeKey).
Qed.

Lemma GetStoreCommitID_from_first (before after : list StoreInfo) (si : StoreInfo) :
  Forall (fun s => si_Name s <> si_Name si) before ->
  GetStoreCommitID_from (before ++ si :: after) (si_Name si) = si_CommitID si.
Proof.
  induction 1 as [|s before Hs _ IH]; simpl.
  - by rewrite String.eqb_refl.
  - by destruct (String.eqb_spec (si_Name s) (si_Name si)).
Qed.

Lemma GetStoreCommitID_from_NoDup (sis : list StoreInfo) (si : StoreInfo) :
  NoDup (map si_Name sis) -> si ∈ sis ->
  GetStoreCommitID_from sis (si_Name si) = si_CommitID si.
Proof.
  intros Hnd Hin. apply list_elem_of_split in Hin as (before & after & ->).
  apply GetStoreCommitID_from_first. apply Forall_forall. intros s Hs Hname.
  assert (s = si) as ->.
  { apply (NoDup_map_eq si_Name (before ++ si :: after)); [done| |set_solver|done].
    set_solver. }
  rewrite map_app in Hnd. simpl in Hnd.
  apply NoDup_app in Hnd as (_ & Hdisj & _).
  apply (Hdisj (si_Name si)).
  - by apply (list_elem_of_fmap_2 si_Name).
  - left.
Qed.

Lemma named_or_not (sis : list StoreInfo) (storeKey : string) :
  Forall (fun si => si_Name si <> storeKey) sis
  \/ exists si, si ∈ sis /\ si_Name si = storeKey.
Proof.
  induction sis as [|si sis [IH|(s & Hs & Hname)]].
  - left. constructor.
  - destruct (String.eqb_spec (si_Name si) storeKey) as [Heq|Hne].
    + right. exists si. split; [left|done].
    + left. by constructor.
  - right. exists s. split; [by right|done].
Qed.

(** With distinct names the lookup depends on the set of stores, not on
    their order. *)
Lemma GetStoreCommitID_from_Permutation (l1 l2 : list StoreInfo) (storeKey : string) :
  NoDup (map si_Name l1) -> l1 ≡ₚ l2 ->
  GetStoreCommitID_from l1 storeKey = GetStoreCommitID_from l2 storeKey.
Proof.
  intros Hnd Hperm.
  assert (NoDup (map si_Name l2)) as Hnd2.
  { by rewrite <- (Permutation_map si_Name Hperm). }
  destruct (named_or_not l1 storeKey) as [Hnone|(si & Hin & <-)].
  - rewrite !GetStoreCommitID_from_missing; [done| |done].
    eapply Permutation_Forall; [exact Hperm|done].
  - rewrite !GetStoreCommitID_from_NoDup; [done|done| |done|done].
    by rewrite <- Hperm.
Qed.

(** X1. With distinct store names, [GetStoreCommitID] of the name of a
    store of the record is the commit id of that store. *)
Theorem GetStoreCommitID_present (ci : CommitInfo) (si : StoreInfo) :
  NoDup (map si_Name (ci_StoreInfos ci)) -> si ∈ ci_StoreInfos ci ->
  GetStoreCommitID ci (si_Name si) = si_CommitID si.
Proof. apply GetStoreCommitID_from_NoDup. Qed.

(** X2. [GetStoreCommitID] of a name no store has is the zero commit id,
    not an error; [IsZero] holds of it. *)
Theorem GetStoreCommitID_missing (ci : CommitInfo) (storeKey : string) :
  Forall (fun si => si_Name si <> storeKey) (ci_StoreInfos ci) ->
  GetStoreCommitID ci storeKey = zeroCommitID
  /\ IsZero (GetStoreCommitID ci storeKey) = true.
Proof.
  intros Hnone. unfold GetStoreCommitID.
  by rewrite GetStoreCommitID_from_missing.
Qed.

Section sort_in_place.
Context `{StoreInternals}.

Lemma GetStoreProof_Returned_inv (ci ci' : CommitInfo) (storeKey : string)
    (r : bytes * option CommitmentOp * option error) :
  GetStoreProof ci storeKey = Returned (ci', r) ->
  ci' = set_StoreInfos ci (sorted_StoreInfos ci).
Proof.
  unfold GetStoreProof. fold (sorted_StoreInfos ci).
  cbn [ci_StoreInfos set_StoreInfos].
  destruct (hashLeaves _ _ _ _ _) as [[leaves index]|err]; [|by intros [= <- _]].
  destruct (ProofFromByteSlices leaves index) as [rootHash inners].
  destruct (sorted_StoreInfos ci !! index); [|done]. by intros [= <- _].
Qed.

Lemma sorted_StoreInfos_StronglySorted (ci : CommitInfo) :
  StronglySorted le_Name (sorted_StoreInfos ci).
Proof.
  apply Sorted_StronglySorted; [apply le_Name_trans|].
  apply sort_Slice_Sorted, less_Name_asym.
Qed.

(** X3. [GetStoreProof] changes the record by sorting it and in no other
    way: when it returns, the version, the timestamp and [CommitHash]
    are as before, and the store infos are the same stores, each name
    not after the names behind it. *)
Theorem GetStoreProof_sorts_in_place (ci ci' : CommitInfo) (storeKey : string)
    (r : bytes * option CommitmentOp * option error) :
  GetStoreProof ci storeKey = Returned (ci', r) ->
  ci_Version ci' = ci_Version ci
  /\ ci_Timestamp ci' = ci_Timestamp ci
  /\ ci_CommitHash ci' = ci_CommitHash ci
  /\ ci_StoreInfos ci' ≡ₚ ci_StoreInfos ci
  /\ StronglySorted le_Name (ci_StoreInfos ci').
Proof.
  intros Hret. apply GetStoreProof_Returned_inv in Hret as ->. simpl.
  repeat split; [apply sort_Slice_Permutation|apply sorted_StoreInfos_StronglySorted].
Qed.

(** X4. With distinct store names the sort of [GetStoreProof] does not
    change what [GetStoreCommitID] returns, for any store key. *)
Theorem GetStoreCommitID_after_GetStoreProof (ci ci' : CommitInfo)
    (storeKey k : string) (r : bytes * option CommitmentOp * option error) :
  NoDup (map si_Name (ci_StoreInfos ci)) ->
  GetStoreProof ci storeKey = Returned (ci', r) ->
  GetStoreCommitID ci' k = GetStoreCommitID ci k.
Proof.
  intros Hnd Hret. apply GetStoreProof_Returned_inv in Hret as ->.
  unfold GetStoreCommitID. simpl. symmetry.
  apply GetStoreCommitID_from_Permutation; [done|].
  symmetry. apply sort_Slice_Permutation.
Qed.

(** X5. With distinct store names and leaves that hash, [GetStoreProof]
    of the name of a store of the record selects that store: the
    operator is built for that name as key and for the hash
    [GetStoreCommitID] returns for it as value. *)
Theorem GetStoreProof_present_name (ci : CommitInfo) (si : StoreInfo)
    (leaves : list bytes) :
  NoDup (map si_Name (ci_StoreInfos ci)) ->
  si ∈ ci_StoreInfos ci ->
  leaf_hashes (sorted_StoreInfos ci) = Ok leaves ->
  exists index,
    sorted_StoreInfos ci !! index = Some si
    /\ GetStoreProof ci (si_Name si) =
         Returned (set_StoreInfos ci (sorted_StoreInfos ci),
           (fst (ProofFromByteSlices leaves index),
            Some (ConvertCommitmentOp (snd (ProofFromByteSlices leaves index))
                    (list_byte_of_string (si_Name si))
                    (cid_Hash (GetStoreCommitID ci (si_Name si)))),
            None)).
Proof.
  intros Hnd Hin Hleaves.
  assert (ci_StoreInfos ci <> []) as Hne by (intros Hnil; rewrite Hnil in Hin; inv Hin).
  destruct (GetStoreProof_nonempty ci (si_Name si) Hne) as (si' & Hsi' & Heq).
  rewrite Hleaves in Heq.
  assert (si' = si) as ->.
  { destruct (selectIndex_spec (si_Name si) (sorted_StoreInfos ci) 0 0)
      as [[_ Hnone]|(s & _ & Hs & Hname)].
    - exfalso. rewrite Forall_forall in Hnone. apply (Hnone si); [|done].
      unfold sorted_StoreInfos. by rewrite sort_Slice_Permutation.
    - rewrite Nat.sub_0_r, Hsi' in Hs. injection Hs as <-.
      apply (NoDup_map_eq si_Name (ci_StoreInfos ci)); [done| |done|done].
      apply list_elem_of_lookup_2 in Hsi'. unfold sorted_StoreInfos in Hsi'.
      by rewrite sort_Slice_Permutation in Hsi'. }
  exists (selectIndex (si_Name si) (sorted_StoreInfos ci) 0 0).
  split; [done|]. rewrite Heq. unfold GetStoreCommitID.
  by rewrite GetStoreCommitID_from_NoDup.
Qed.

(** X6. When the root [ProofFromByteSlices] returns does not depend on
    the index, [GetStoreProof] returns for every store key the root
    [Hash] returns for the fresh record, and leaves the record as [Hash]
    does. *)
Theorem GetStoreProof_root_is_Hash (ci : CommitInfo) (storeKey : string) :
  (forall leaves i j,
     fst (ProofFromByteSlices leaves i) = fst (ProofFromByteSlices leaves j)) ->
  ci_StoreInfos ci <> [] -> ci_CommitHash ci = [] ->
  exists ci' root op err,
    GetStoreProof ci storeKey = Returned (ci', (root, op, err))
    /\ Hash ci = Returned (ci', root).
Proof.
  intros Hroot Hne Hcache.
  destruct (GetStoreProof_nonempty ci storeKey Hne) as (si & _ & Heq).
  rewrite Hash_computes by done. unfold computed_root.
  destruct (leaf_hashes (sorted_StoreInfos ci)) as [leaves|e]; simpl in Heq.
  - eexists _, _, _, _. split; [exact Heq|]. do 2 f_equal. apply Hroot.
  - eexists _, _, _, _. split; [exact Heq|]. done.
Qed.

(** X7. With distinct store names a second [GetStoreProof] on the record
    the first one has sorted returns the same values and leaves the
    record as it is. *)
Theorem GetStoreProof_again (ci ci' : CommitInfo) (storeKey : string)
    (r : bytes * option CommitmentOp * option error) :
  NoDup (map si_Name (ci_StoreInfos ci)) ->
  GetStoreProof ci storeKey = Returned (ci', r) ->
  GetStoreProof ci' storeKey = Returned (ci', r).
Proof.
  intros Hnd Hret. pose proof (GetStoreProof_Returned_inv _ _ _ _ Hret) as Hci'.
  rewrite <- Hret. rewrite Hci' at 1. unfold GetStoreProof, sorted_StoreInfos.
  cbn [ci_StoreInfos set_StoreInfos ci_Version ci_Timestamp ci_CommitHash].
  by rewrite !(sort_Slice_less_Name_idemp _ Hnd).
Qed.

(** X8. [CommitID] of a record without store infos has the version of
    the record and the nil hash, whatever [CommitHash] holds: it is the
    zero commit id exactly when the version is 0. *)
Theorem CommitInfo_CommitID_without_stores (ci : CommitInfo) :
  ci_StoreInfos ci = [] ->
  CommitInfo_CommitID ci = Returned (ci, mkCommitID (ci_Version ci) [])
  /\ IsZero (mkCommitID (ci_Version ci) []) = (ci_Version ci =? 0).
Proof.
  intros Hnil. unfold CommitInfo_CommitID, Hash. rewrite Hnil. simpl.
  split; [done|]. unfold IsZero. simpl. apply andb_true_r.
Qed.

Lemma leaf_hashes_Ok_Forall (sis : list StoreInfo) (leaves : list bytes) :
  leaf_hashes sis = Ok leaves ->
  Forall (fun si => exists leaf,
    LeafHash (list_byte_of_string (si_Name si)) (GetHash si) = Ok leaf) sis.
Proof.
  revert leaves. induction sis as [|si sis IH]; intros leaves; simpl; [done|].
  destruct (LeafHash _ _) as [leaf|e] eqn:Hleaf; [|done].
  destruct (leaf_hashes sis) as [ls|e]; [|done]. intros _.
  constructor; [by exists leaf|by apply (IH ls)].
Qed.

(** X9. [Hash] drops the error of [GetStoreProof]: when a store of a
    fresh record has a leaf that fails to hash, [GetStoreProof] returns
    an error for every store key and [Hash] returns the nil slice, as it
    does for a record without stores. *)
Theorem Hash_drops_LeafHash_error (ci : CommitInfo) (si : StoreInfo) (e : error) :
  si ∈ ci_StoreInfos ci ->
  LeafHash (list_byte_of_string (si_Name si)) (GetHash si) = Err e ->
  ci_CommitHash ci = [] ->
  exists ci',
    Hash ci = Returned (ci', [])
    /\ forall storeKey, exists err,
         GetStoreProof ci storeKey = Returned (ci', ([], None, Some err)).
Proof.
  intros Hin Hleaf Hcache.
  assert (ci_StoreInfos ci <> []) as Hne by (intros Hnil; rewrite Hnil in Hin; inv Hin).
  assert (exists err, leaf_hashes (sorted_StoreInfos ci) = Err err) as [err Herr].
  { destruct (leaf_hashes (sorted_StoreInfos ci)) as [leaves|err] eqn:Hleaves; [|eauto].
    exfalso. apply leaf_hashes_Ok_Forall in Hleaves.
    rewrite Forall_forall in Hleaves.
    destruct (Hleaves si) as [leaf Hok]; [|congruence].
    unfold sorted_StoreInfos. by rewrite sort_Slice_Permutation. }
  exists (set_StoreInfos ci (sorted_StoreInfos ci)). split.
  - rewrite Hash_computes by done. unfold computed_root. by rewrite Herr.
  - intros storeKey. exists err.
    destruct (GetStoreProof_nonempty ci storeKey Hne) as (s & _ & ->).
    by rewrite Herr.
Qed.
End sort_in_place.

(** ** More on the codec *)

Lemma Marshal_eq (ci : CommitInfo) :
  Marshal ci =
    Ok (PutUvarint (ci_Version ci) ++ PutVarint (UnixNano (ci_Timestamp ci))
        ++ PutUvarint (wrap_uint64 (Z.of_nat (length (ci_StoreInfos ci))))
        ++ concat (map encoded_StoreInfo (ci_StoreInfos ci))).
Proof.
  unfold Marshal, EncodeUvarint, EncodeVarint.
  rewrite marshalStoreInfos_eq. by rewrite <- !app_assoc.
Qed.

(** The round trip with bytes left over behind the encoding. *)
Lemma Unmarshal_encoded_app (ci receiver : CommitInfo) (bz rest : bytes) :
  well_typed ci ->
  valid_Time (ci_Timestamp ci) ->
  fits_UnixNano (ci_Timestamp ci) ->
  Marshal ci = Ok bz ->
  Unmarshal receiver (bz ++ rest) =
    (mkCommitInfo (ci_Version ci)
       (map (decoded_StoreInfo (ci_Version ci)) (ci_StoreInfos ci))
       (ci_Timestamp ci)
       (ci_CommitHash receiver), None).
Proof.
  intros (Hversion & Hcount & Hwf) Hvalid Hfits. rewrite Marshal_eq. intros [= <-].
  set (count := Z.of_nat (length (ci_StoreInfos ci))).
  rewrite wrap_uint64_small by (unfold count; lia).
  assert (UnixNano (ci_Timestamp ci)
          = unixSec (ci_Timestamp ci) * 1000000000 + nsec (ci_Timestamp ci)) as Hnano.
  { unfold UnixNano. by apply wrap_int64_small. }
  unfold Unmarshal. rewrite <- !app_assoc.
  rewrite DecodeUvarint_PutUvarint, drop_app_length by done.
  rewrite DecodeVarint_PutVarint, drop_app_length by (rewrite Hnano; done).
  rewrite Unix_UnixNano by done.
  rewrite DecodeUvarint_PutUvarint, drop_app_length by (unfold count; lia).
  rewrite wrap_int64_small by (unfold count; lia).
  unfold count. rewrite Nat2Z.id.
  pose proof (unmarshalStoreInfos_encoded (ci_StoreInfos ci) []
    (set_StoreInfos (set_Timestamp (set_Version receiver (ci_Version ci)) (ci_Timestamp ci))
       (replicate (length (ci_StoreInfos ci)) zeroStoreInfo)) rest Hwf eq_refl) as Hloop.
  simpl length in Hloop. by rewrite Hloop.
Qed.

Lemma encoded_StoreInfo_name_and_hash (l1 l2 : list StoreInfo) :
  map name_and_hash l1 = map name_and_hash l2 ->
  map encoded_StoreInfo l1 = map encoded_StoreInfo l2.
Proof.
  revert l2. induction l1 as [|a l1 IH]; intros [|b l2]; simpl; try done.
  intros [= Hname Hhash Htl]. f_equal; [|by apply IH].
  unfold encoded_StoreInfo. by rewrite Hname, Hhash.
Qed.

(** X10. [Marshal] writes neither [CommitHash] nor the version of a
    store's commit id: two records with the same version, the same Unix
    nanoseconds and the same names and hashes in the same order have the
    same encoding. *)
Theorem Marshal_ignores_CommitHash_and_store_versions (ci1 ci2 : CommitInfo) :
  ci_Version ci1 = ci_Version ci2 ->
  UnixNano (ci_Timestamp ci1) = UnixNano (ci_Timestamp ci2) ->
  map name_and_hash (ci_StoreInfos ci1) = map name_and_hash (ci_StoreInfos ci2) ->
  Marshal ci1 = Marshal ci2.
Proof.
  intros Hversion Hnano Hstores. rewrite !Marshal_eq, Hversion, Hnano.
  rewrite (encoded_StoreInfo_name_and_hash _ _ Hstores).
  apply (f_equal (@length _)) in Hstores. rewrite !length_map in Hstores.
  by rewrite Hstores.
Qed.

Lemma name_and_hash_decoded (version : Z) (sis : list StoreInfo) :
  map name_and_hash (map (decoded_StoreInfo version) sis) = map name_and_hash sis.
Proof. rewrite map_map. by apply map_ext. Qed.

(** X11. The encoding tells records apart: two records (timestamps
    within the range of [UnixNano]) with the same encoding have the same
    version, the same timestamp and the same names and hashes in the
    same order. *)
Theorem Marshal_injective (ci1 ci2 : CommitInfo) :
  well_typed ci1 -> valid_Time (ci_Timestamp ci1) -> fits_UnixNano (ci_Timestamp ci1) ->
  well_typed ci2 -> valid_Time (ci_Timestamp ci2) -> fits_UnixNano (ci_Timestamp ci2) ->
  Marshal ci1 = Marshal ci2 ->
  ci_Version ci1 = ci_Version ci2
  /\ ci_Timestamp ci1 = ci_Timestamp ci2
  /\ map name_and_hash (ci_StoreInfos ci1) = map name_and_hash (ci_StoreInfos ci2).
Proof.
  intros Ht1 Hv1 Hf1 Ht2 Hv2 Hf2 Heq.
  pose proof (Marshal_eq ci1) as Hbz1. pose proof Hbz1 as Hbz2. rewrite Heq in Hbz2.
  pose proof (Unmarshal_encoded_app ci1 zeroCommitInfo _ [] Ht1 Hv1 Hf1 Hbz1) as H1.
  pose proof (Unmarshal_encoded_app ci2 zeroCommitInfo _ [] Ht2 Hv2 Hf2 Hbz2) as H2.
  rewrite H1 in H2. injection H2 as Hversion Hstores Htime.
  split; [done|]. split; [done|].
  rewrite <- (name_and_hash_decoded (ci_Version ci1) (ci_StoreInfos ci1)).
  rewrite <- (name_and_hash_decoded (ci_Version ci2) (ci_StoreInfos ci2)).
  by rewrite Hstores.
Qed.

(** X12. [Unmarshal] reads the encoding of a record from the front of
    the buffer and does not look at what follows: bytes behind the
    encoding are not an error and change nothing. *)
Theorem Unmarshal_ignores_trailing_bytes (ci receiver : CommitInfo) (bz rest : bytes) :
  well_typed ci ->
  valid_Time (ci_Timestamp ci) ->
  fits_UnixNano (ci_Timestamp ci) ->
  Marshal ci = Ok bz ->
  Unmarshal receiver (bz ++ rest) = Unmarshal receiver bz
  /\ snd (Unmarshal receiver (bz ++ rest)) = None.
Proof.
  intros Htyped Hvalid Hfits Hbz.
  rewrite (Unmarshal_encoded_app ci receiver bz rest) by done.
  pose proof (Unmarshal_encoded_app ci receiver bz [] Htyped Hvalid Hfits Hbz) as Hnil.
  rewrite app_nil_r in Hnil. by rewrite Hnil.
Qed.

(** The loop of [Unmarshal] writes the store infos only, and only from
    index [i] on. *)
Lemma unmarshalStoreInfos_frame (count i : nat) (ci : CommitInfo) (buf : bytes) :
  let ci' := fst (unmarshalStoreInfos count i ci buf) in
  ci_Version ci' = ci_Version ci
  /\ ci_Timestamp ci' = ci_Timestamp ci
  /\ ci_CommitHash ci' = ci_CommitHash ci
  /\ length (ci_StoreInfos ci') = length (ci_StoreInfos ci)
  /\ forall j, (j < i)%nat -> ci_StoreInfos ci' !! j = ci_StoreInfos ci !! j.
Proof.
  revert i ci buf. induction count as [|count IH]; intros i ci buf;
    cbn [unmarshalStoreInfos]; [done|].
  destruct (DecodeBytes buf) as [[name n1]|e]; [|done].
  cbv beta iota zeta.
  destruct (DecodeBytes (drop n1 buf)) as [[hash n2]|e]; cbv beta iota zeta.
  - match goal with |- context [unmarshalStoreInfos count (S i) ?c ?b] =>
      destruct (IH (S i) c b) as (Hv & Ht & Hh & Hlen & Hlow) end.
    rewrite Hv, Ht, Hh, Hlen. cbn [ci_Version ci_Timestamp ci_CommitHash
      ci_StoreInfos set_StoreInfos]. rewrite !length_alter.
    repeat split. intros j Hj. rewrite Hlow by lia.
    cbn [ci_StoreInfos set_StoreInfos].
    by rewrite !list_lookup_alter_ne by lia.
  - cbn [fst ci_Version ci_Timestamp ci_CommitHash ci_StoreInfos set_StoreInfos].
    rewrite length_alter. repeat split. intros j Hj.
    by rewrite list_lookup_alter_ne by lia.
Qed.

Lemma Unmarshal_CommitHash (receiver : CommitInfo) (buf : bytes) :
  ci_CommitHash (fst (Unmarshal receiver buf)) = ci_CommitHash receiver.
Proof.
  unfold Unmarshal.
  destruct (DecodeUvarint buf) as [[version n1]|e]; [|done]. cbv beta iota zeta.
  destruct (DecodeVarint _) as [[timestamp n2]|e]; [|done]. cbv beta iota zeta.
  destruct (DecodeUvarint _) as [[storeInfosLen n3]|e]; [|done]. cbv beta iota zeta.
  match goal with |- context [unmarshalStoreInfos ?c ?i ?r ?b] =>
    destruct (unmarshalStoreInfos_frame c i r b) as (_ & _ & -> & _) end.
  done.
Qed.

(** X13. [Unmarshal] never writes [CommitHash]: whatever the buffer, and
    whether decoding succeeds or fails, the receiver keeps the one it
    had. *)
Theorem Unmarshal_keeps_CommitHash (receiver : CommitInfo) (buf : bytes) :
  ci_CommitHash (fst (Unmarshal receiver buf)) = ci_CommitHash receiver.
Proof. apply Unmarshal_CommitHash. Qed.

(** X14. [Unmarshal] is not atomic: on a buffer that holds a version and
    nothing else it fails, and the receiver is left with that version in
    place of its own (its other fields untouched). *)
Theorem Unmarshal_version_only (receiver : CommitInfo) (version : Z) :
  0 <= version < 2 ^ 64 ->
  Unmarshal receiver (PutUvarint version)
    = (set_Version receiver version, Some (LibraryError "buffer too small")).
Proof.
  intros Hversion. unfold Unmarshal.
  pose proof (DecodeUvarint_PutUvarint version [] Hversion) as Hdec.
  rewrite app_nil_r in Hdec. rewrite Hdec. cbv beta iota zeta.
  by rewrite drop_all.
Qed.

(** *** Truncated input *)

Lemma byte_of_Z_continuation (y : Z) : (Z_of_byte (byte_of_Z (Z.lor y 128)) <? 128) = false.
Proof.
  rewrite Z_of_byte_of_Z, lor_128_mod_256.
  assert (0 <= y mod 128 < 128) by (apply Z.mod_pos_bound; lia). lia.
Qed.

(** A varint cut short is all continuation bytes: the reader runs off
    the buffer. *)
Lemma uvarint_from_truncated (fuel : nat) (y : Z) (n i : nat) (acc s : Z) :
  (i + fuel = 9)%nat ->
  (n < length (putUvarint fuel y))%nat ->
  uvarint_from (take n (putUvarint fuel y)) i acc s = (0, 0).
Proof.
  revert y n i acc s. induction fuel as [|fuel IH]; intros y n i acc s Hi Hn.
  - simpl in *. by replace n with 0%nat by lia.
  - cbn [putUvarint] in *. destruct (128 <=? y).
    + destruct n as [|n]; [done|]. cbn [take uvarint_from]. simpl in Hn.
      assert ((i =? MaxVarintLen64)%nat = false) as ->.
      { apply Nat.eqb_neq. unfold MaxVarintLen64. lia. }
      rewrite byte_of_Z_continuation. apply IH; lia.
    + simpl in Hn. by replace n with 0%nat by lia.
Qed.

Lemma DecodeUvarint_truncated (x : Z) (n : nat) :
  (n < length (PutUvarint x))%nat ->
  DecodeUvarint (take n (PutUvarint x)) = Err (LibraryError "buffer too small").
Proof.
  intros Hn. unfold DecodeUvarint, Uvarint, PutUvarint in *.
  by rewrite uvarint_from_truncated.
Qed.

Lemma DecodeVarint_truncated (x : Z) (n : nat) :
  (n < length (PutVarint x))%nat ->
  DecodeVarint (take n (PutVarint x)) = Err (LibraryError "buffer too small").
Proof.
  intros Hn. unfold DecodeVarint, PutVarint in *. by rewrite DecodeUvarint_truncated.
Qed.

Lemma take_app_lt {A : Type} (l k : list A) (n : nat) :
  (n < length l)%nat -> take n (l ++ k) = take n l.
Proof. intros Hn. rewrite take_app. replace (n - length l)%nat with 0%nat by lia.
  by rewrite take_0, app_nil_r. Qed.

Lemma take_app_ge' {A : Type} (l k : list A) (n : nat) :
  (length l <= n)%nat -> take n (l ++ k) = l ++ take (n - length l) k.
Proof. intros Hn. rewrite take_app. by rewrite take_ge. Qed.

Lemma DecodeBytes_truncated (bz : bytes) (n : nat) :
  Z.of_nat (length bz) < 2 ^ 63 - 1 ->
  (n < length (encoded_bytes bz))%nat ->
  exists e, DecodeBytes (take n (encoded_bytes bz)) = Err e.
Proof.
  intros Hlen Hn. unfold encoded_bytes in *. rewrite length_app in Hn.
  set (prefix := PutUvarint (Z.of_nat (length bz))) in *.
  destruct (Nat.lt_ge_cases n (length prefix)) as [Hlt|Hge].
  - rewrite take_app_lt by done. unfold DecodeBytes, prefix.
    rewrite DecodeUvarint_truncated by done. eauto.
  - rewrite take_app_ge' by done. unfold DecodeBytes. unfold prefix at 1.
    rewrite DecodeUvarint_PutUvarint by lia. fold prefix.
    assert ((2 ^ 63 - 1 <=? Z.of_nat (length bz)) = false) as -> by lia.
    rewrite Nat2Z.id.
    assert ((length (prefix ++ take (n - length prefix) bz)
               <? length prefix + length bz)%nat = true) as ->.
    { apply Nat.ltb_lt. rewrite length_app, length_take. lia. }
    eauto.
Qed.

Lemma encoded_StoreInfo_length (si : StoreInfo) :
  length (encoded_StoreInfo si)
    = (length (encoded_bytes (list_byte_of_string (si_Name si)))
       + length (encoded_bytes (GetHash si)))%nat.
Proof. unfold encoded_StoreInfo. by rewrite length_app. Qed.

Lemma unmarshalStoreInfos_truncated (sis : list StoreInfo) (i n : nat) (ci : CommitInfo) :
  Forall (fun si =>
    Z.of_nat (String.length (si_Name si)) < 2 ^ 63 - 1
    /\ Z.of_nat (length (GetHash si)) < 2 ^ 63 - 1) sis ->
  (n < length (concat (map encoded_StoreInfo sis)))%nat ->
  exists e, snd (unmarshalStoreInfos (length sis) i ci
                   (take n (concat (map encoded_StoreInfo sis)))) = Some e.
Proof.
  revert i n ci. induction sis as [|si sis IH]; intros i n ci Hwf Hn;
    [simpl in Hn; lia|].
  apply Forall_cons in Hwf as [[Hname Hhash] Hwf].
  cbn [length map concat unmarshalStoreInfos] in *.
  rewrite length_app, encoded_StoreInfo_length in Hn.
  set (ename := encoded_bytes (list_byte_of_string (si_Name si))) in *.
  set (ehash := encoded_bytes (GetHash si)) in *.
  set (tail := concat (map encoded_StoreInfo sis)) in *.
  assert (encoded_StoreInfo si ++ tail = ename ++ ehash ++ tail) as ->.
  { unfold encoded_StoreInfo. by rewrite <- app_assoc. }
  destruct (Nat.lt_ge_cases n (length ename)) as [Hlt|Hge].
  { rewrite take_app_lt by done.
    destruct (DecodeBytes_truncated (list_byte_of_string (si_Name si)) n) as [e He];
      [by rewrite list_byte_of_string_length|done|].
    fold ename in He. rewrite He. simpl. eauto. }
  rewrite take_app_ge' by done.
  destruct (DecodeBytes_encoded_bytes (list_byte_of_string (si_Name si))
              (take (n - length ename) (ehash ++ tail)))
    as (n1 & Hdec1 & Hdrop1); [by rewrite list_byte_of_string_length|].
  fold ename in Hdec1, Hdrop1. rewrite Hdec1. cbv beta iota zeta. rewrite Hdrop1.
  destruct (Nat.lt_ge_cases (n - length ename) (length ehash)) as [Hlt2|Hge2].
  { rewrite take_app_lt by done.
    destruct (DecodeBytes_truncated (GetHash si) (n - length ename)) as [e He];
      [done|done|].
    fold ehash in He. rewrite He. simpl. eauto. }
  rewrite take_app_ge' by done.
  destruct (DecodeBytes_encoded_bytes (GetHash si)
              (take (n - length ename - length ehash) tail))
    as (n2 & Hdec2 & Hdrop2); [done|].
  fold ehash in Hdec2, Hdrop2. rewrite Hdec2. cbv beta iota zeta. rewrite Hdrop2.
  apply IH; [done|lia].
Qed.

(** X15. A truncated encoding is always a decoding error: [Unmarshal] of
    any proper prefix of the encoding of a record fails. *)
Theorem Unmarshal_truncated (ci receiver : CommitInfo) (bz : bytes) (n : nat) :
  well_typed ci ->
  fits_UnixNano (ci_Timestamp ci) ->
  Marshal ci = Ok bz ->
  (n < length bz)%nat ->
  exists e, snd (Unmarshal receiver (take n bz)) = Some e.
Proof.
  intros (Hversion & Hcount & Hwf) Hfits. rewrite Marshal_eq. intros [= <-] Hn.
  set (count := Z.of_nat (length (ci_StoreInfos ci))) in *.
  rewrite wrap_uint64_small in * by (unfold count; lia).
  assert (UnixNano (ci_Timestamp ci)
          = unixSec (ci_Timestamp ci) * 1000000000 + nsec (ci_Timestamp ci)) as Hnano.
  { unfold UnixNano. by apply wrap_int64_small. }
  set (eversion := PutUvarint (ci_Version ci)) in *.
  set (etime := PutVarint (UnixNano (ci_Timestamp ci))) in *.
  set (ecount := PutUvarint count) in *.
  set (estores := concat (map encoded_StoreInfo (ci_StoreInfos ci))) in *.
  rewrite !length_app in Hn. unfold Unmarshal.
  destruct (Nat.lt_ge_cases n (length eversion)) as [Hlt|Hge].
  { rewrite take_app_lt by done. unfold eversion.
    rewrite DecodeUvarint_truncated by done. simpl. eauto. }
  rewrite take_app_ge' by done. unfold eversion at 1.
  rewrite DecodeUvarint_PutUvarint by done. fold eversion.
  cbv beta iota zeta. rewrite drop_app_length.
  destruct (Nat.lt_ge_cases (n - length eversion) (length etime)) as [Hlt2|Hge2].
  { rewrite take_app_lt by done. unfold etime.
    rewrite DecodeVarint_truncated by done. simpl. eauto. }
  rewrite take_app_ge' by done. unfold etime at 1.
  rewrite DecodeVarint_PutVarint by (rewrite Hnano; done). fold etime.
  cbv beta iota zeta. rewrite drop_app_length.
  destruct (Nat.lt_ge_cases (n - length eversion - length etime) (length ecount))
    as [Hlt3|Hge3].
  { rewrite take_app_lt by done. unfold ecount.
    rewrite DecodeUvarint_truncated by done. simpl. eauto. }
  rewrite take_app_ge' by done. unfold ecount at 1.
  rewrite DecodeUvarint_PutUvarint by (unfold count; lia). fold ecount.
  cbv beta iota zeta. rewrite drop_app_length.
  rewrite wrap_int64_small by (unfold count; lia).
  unfold count. rewrite Nat2Z.id.
  apply unmarshalStoreInfos_truncated; [done|]. fold estores. lia.
Qed.

(** *** What a successful [Unmarshal] leaves in the receiver *)

Lemma unmarshalStoreInfos_versions (count i : nat) (ci ci' : CommitInfo) (buf : bytes) :
  unmarshalStoreInfos count i ci buf = (ci', None) ->
  forall j si, (i <= j < i + count)%nat ->
    ci_StoreInfos ci' !! j = Some si ->
    cid_Version (si_CommitID si) = ci_Version ci.
Proof.
  revert i ci buf. induction count as [|count IH]; intros i ci buf;
    cbn [unmarshalStoreInfos]; [intros _ j si Hj; lia|].
  destruct (DecodeBytes buf) as [[name n1]|e]; [|done]. cbv beta iota zeta.
  destruct (DecodeBytes (drop n1 buf)) as [[hash n2]|e]; [|done]. cbv beta iota zeta.
  intros Hloop j si Hj Hsi.
  destruct (decide (j = i)) as [->|Hne].
  - match type of Hloop with unmarshalStoreInfos count (S i) ?c ?b = _ =>
      destruct (unmarshalStoreInfos_frame count (S i) c b) as (_ & _ & _ & _ & Hlow) end.
    rewrite Hloop in Hlow. simpl fst in Hlow. rewrite (Hlow i) in Hsi by lia.
    cbn [ci_StoreInfos set_StoreInfos ci_Version] in Hsi.
    rewrite !list_lookup_alter_eq in Hsi.
    destruct (ci_StoreInfos ci !! i); simpl in Hsi; [|done].
    by injection Hsi as <-.
  - by apply (IH _ _ _ Hloop j si); [lia|].
Qed.

Lemma Unmarshal_Ok_inv (receiver ci' : CommitInfo) (buf : bytes) :
  Unmarshal receiver buf = (ci', None) ->
  exists storeInfosLen ci0 rest,
    ci_Version ci0 = ci_Version ci'
    /\ ci_StoreInfos ci0 = replicate (Z.to_nat storeInfosLen) zeroStoreInfo
    /\ unmarshalStoreInfos (Z.to_nat (wrap_int64 storeInfosLen)) 0 ci0 rest = (ci', None).
Proof.
  unfold Unmarshal.
  destruct (DecodeUvarint buf) as [[version n1]|e]; [|done]. cbv beta iota zeta.
  destruct (DecodeVarint _) as [[timestamp n2]|e]; [|done]. cbv beta iota zeta.
  destruct (DecodeUvarint _) as [[storeInfosLen n3]|e]; [|done]. cbv beta iota zeta.
  intros Hloop. eexists storeInfosLen, _, _. split; [|split; [|exact Hloop]]; [|done].
  match type of Hloop with unmarshalStoreInfos ?c ?i ?r ?b = _ =>
    destruct (unmarshalStoreInfos_frame c i r b) as (Hv & _) end.
  rewrite Hloop in Hv. simpl in Hv. by rewrite Hv.
Qed.

(** X16. After a successful [Unmarshal] of any buffer every store info
    of the receiver carries the decoded version of the aggregate as the
    version of its commit id (the store infos being a slice, of a length
    an [int] holds). *)
Theorem Unmarshal_store_versions (receiver ci' : CommitInfo) (buf : bytes) :
  Unmarshal receiver buf = (ci', None) ->
  Z.of_nat (length (ci_StoreInfos ci')) < 2 ^ 63 ->
  Forall (fun si => cid_Version (si_CommitID si) = ci_Version ci') (ci_StoreInfos ci').
Proof.
  intros Hok Hlen.
  apply Unmarshal_Ok_inv in Hok as (len & ci0 & rest & Hv & Hstores & Hloop).
  match type of Hloop with unmarshalStoreInfos ?c ?i ?r ?b = _ =>
    destruct (unmarshalStoreInfos_frame c i r b) as (_ & _ & _ & Hlength & _) end.
  rewrite Hloop in Hlength. simpl fst in Hlength.
  rewrite Hstores, length_replicate in Hlength.
  apply Forall_lookup. intros j si Hsi. rewrite <- Hv.
  apply (unmarshalStoreInfos_versions _ _ _ _ _ Hloop j si); [|done].
  apply lookup_lt_Some in Hsi. rewrite Hlength in Hsi, Hlen.
  assert (0 <= len < 2 ^ 63) by lia.
  rewrite wrap_int64_small by lia. lia.
Qed.

(** *** [encodedSize] *)

Section encodedSize_facts.
Context `{CodecSizes}.

Lemma encodedSize_loop (sis : list StoreInfo) (size : Z) :
  (forall bz, EncodeBytesSize bz = Z.of_nat (length (encoded_bytes bz))) ->
  0 <= size ->
  size + Z.of_nat (length (concat (map encoded_StoreInfo sis))) < 2 ^ 63 ->
  fold_left
    (fun size storeInfo =>
       let size := wrap_int64
         (size + EncodeBytesSize (list_byte_of_string (si_Name storeInfo))) in
       wrap_int64 (size + EncodeBytesSize (cid_Hash (si_CommitID storeInfo))))
    sis size
  = size + Z.of_nat (length (concat (map encoded_StoreInfo sis))).
Proof.
  intros Hbytes. revert size. induction sis as [|si sis IH]; intros size Hsize Hfits;
    cbn [fold_left map concat] in *; [simpl; lia|].
  rewrite length_app, encoded_StoreInfo_length in *. rewrite !Hbytes.
  fold (GetHash si).
  rewrite (wrap_int64_small (size + _)) by lia.
  rewrite wrap_int64_small by lia.
  rewrite IH by lia. lia.
Qed.

(** X17. When each size helper returns the number of bytes its encoder
    writes, [encodedSize] is the length of what [Marshal] returns: the
    capacity [Marshal] reserves is the capacity it fills. *)
Theorem encodedSize_is_Marshal_length (ci : CommitInfo) (bz : bytes) :
  (forall u, EncodeUvarintSize u = Z.of_nat (length (PutUvarint u))) ->
  (forall i, EncodeVarintSize i = Z.of_nat (length (PutVarint i))) ->
  (forall b, EncodeBytesSize b = Z.of_nat (length (encoded_bytes b))) ->
  Marshal ci = Ok bz ->
  Z.of_nat (length bz) < 2 ^ 63 ->
  encodedSize ci = Z.of_nat (length bz).
Proof.
  intros Huvarint Hvarint Hbytes. rewrite Marshal_eq. intros [= <-].
  rewrite !length_app. intros Hfits. unfold encodedSize.
  rewrite !Huvarint, Hvarint.
  rewrite (wrap_int64_small (Z.of_nat _ + Z.of_nat _)) by lia.
  rewrite (wrap_int64_small (Z.of_nat _ + Z.of_nat _ + Z.of_nat _)) by lia.
  rewrite encodedSize_loop by (done || lia). lia.
Qed.
End encodedSize_facts.

(** *** [Hash] after the round trip *)

Section sort_map.
Context {A B : Type} (f : A -> B) (less : A -> A -> bool) (less' : B -> B -> bool).
Hypothesis less_f : forall a b, less' (f a) (f b) = less a b.

Lemma sort_insert_map (x : A) (l : list A) :
  sort_insert less' (f x) (map f l) = map f (sort_insert less x l).
Proof.
  induction l as [|y l IH]; simpl; [done|].
  rewrite less_f. destruct (less x y); simpl; [done|]. by rewrite IH.
Qed.

Lemma sort_Slice_map (l : list A) :
  sort_Slice less' (map f l) = map f (sort_Slice less l).
Proof.
  unfold sort_Slice.
  enough (forall acc,
    fold_left (fun s x => sort_insert less' x s) (map f l) (map f acc)
    = map f (fold_left (fun s x => sort_insert less x s) l acc)) as Hgen
    by apply (Hgen []).
  induction l as [|x l IH]; intros acc; simpl; [done|].
  by rewrite sort_insert_map, IH.
Qed.
End sort_map.

Section Hash_round_trip.
Context `{StoreInternals}.

Lemma leaf_hashes_decoded (version : Z) (sis : list StoreInfo) :
  leaf_hashes (map (decoded_StoreInfo version) sis) = leaf_hashes sis.
Proof.
  induction sis as [|si sis IH]; simpl; [done|]. by rewrite IH.
Qed.

Lemma selectIndex_decoded (version : Z) (storeKey : string) (sis : list StoreInfo)
    (i index : nat) :
  selectIndex storeKey (map (decoded_StoreInfo version) sis) i index
    = selectIndex storeKey sis i index.
Proof.
  revert i index. induction sis as [|si sis IH]; intros i index; simpl; [done|].
  by rewrite IH.
Qed.

Lemma computed_root_decoded (version : Z) (sis : list StoreInfo) :
  computed_root (sort_Slice less_Name (map (decoded_StoreInfo version) sis))
    = computed_root (sort_Slice less_Name sis).
Proof.
  rewrite (sort_Slice_map (decoded_StoreInfo version) less_Name less_Name) by done.
  unfold computed_root. by rewrite leaf_hashes_decoded, selectIndex_decoded.
Qed.

(** X18. The root survives the round trip: [Hash] of the record
    [Unmarshal] rebuilds in a receiver without [CommitHash] returns the
    root [Hash] returns for the fresh record that was encoded, although
    the decoded stores carry other commit id versions. *)
Theorem Hash_after_round_trip (ci receiver : CommitInfo) (bz : bytes) :
  well_typed ci ->
  valid_Time (ci_Timestamp ci) ->
  fits_UnixNano (ci_Timestamp ci) ->
  Marshal ci = Ok bz ->
  ci_CommitHash receiver = [] ->
  exists ci' after after' root,
    Unmarshal receiver bz = (ci', None)
    /\ Hash ci' = Returned (after', root)
    /\ Hash (mkCommitInfo (ci_Version ci) (ci_StoreInfos ci) (ci_Timestamp ci) [])
         = Returned (after, root).
Proof.
  intros Htyped Hvalid Hfits Hbz Hcache.
  pose proof (Unmarshal_encoded_app ci receiver bz [] Htyped Hvalid Hfits Hbz) as Hdec.
  rewrite app_nil_r, Hcache in Hdec.
  destruct (ci_StoreInfos ci) as [|si sis] eqn:Hsis.
  - eexists _, _, _, []. split; [exact Hdec|]. by split.
  - eexists _, _, _, _. split; [exact Hdec|]. split.
    + by rewrite Hash_computes.
    + rewrite Hash_computes by done. unfold sorted_StoreInfos.
      cbn [ci_StoreInfos]. by rewrite computed_root_decoded.
Qed.

(** X19. A receiver that is reused keeps its [CommitHash] through
    [Unmarshal], and [Hash] then returns it: after a successful
    [Unmarshal] that leaves store infos in a receiver with a non-empty
    [CommitHash], [Hash] returns that old [CommitHash] and computes
    nothing from the decoded stores. *)
Theorem Hash_after_Unmarshal_into_hashed_receiver (receiver ci' : CommitInfo)
    (buf : bytes) :
  Unmarshal receiver buf = (ci', None) ->
  ci_StoreInfos ci' <> [] ->
  ci_CommitHash receiver <> [] ->
  Hash ci' = Returned (ci', ci_CommitHash receiver).
Proof.
  intros Hdec Hstores Hcache.
  pose proof (Unmarshal_CommitHash receiver buf) as Hkeep.
  rewrite Hdec in Hkeep. simpl in Hkeep. rewrite <- Hkeep in *.
  by apply Hash_cached.
Qed.
End Hash_round_trip.

(** ** More on the proof operator *)

Section Run_more.
Context `{Ics23}.

(** X20. Every error of [Run] wraps [ErrInvalidProof], whatever the
    operator and the arguments. *)
Theorem Run_errors_wrap_ErrInvalidProof (op : CommitmentOp) (args : list bytes)
    (e : error) :
  Run op args = Err e -> wraps_ErrInvalidProof e = true.
Proof.
  unfold Run.
  destruct (CommitmentProof_Calculate (op_Proof op)) as [root|err];
    [|by intros [= <-]].
  destruct args as [|a [|b args]].
  - destruct (VerifyNonMembership _ _ _ _); simpl; [done|by intros [= <-]].
  - destruct (VerifyMembership _ _ _ _ _); simpl; [done|by intros [= <-]].
  - by intros [= <-].
Qed.

(** X21. [Run] succeeds in two cases only, and returns the calculated
    root alone: no argument and the proof verifies the absence of the
    key, or one argument and the proof verifies the key with that
    value. *)
Theorem Run_Ok_iff (op : CommitmentOp) (args roots : list bytes) :
  Run op args = Ok roots <->
  exists root,
    CommitmentProof_Calculate (op_Proof op) = Ok root
    /\ roots = [root]
    /\ (args = []
          /\ VerifyNonMembership (op_Spec op) root (op_Proof op) (op_Key op) = true
        \/ exists value,
             args = [value]
             /\ VerifyMembership (op_Spec op) root (op_Proof op) (op_Key op) value = true).
Proof.
  unfold Run. split.
  - destruct (CommitmentProof_Calculate (op_Proof op)) as [root|err]; [|done].
    destruct args as [|a [|b args]]; [| |done].
    + destruct (VerifyNonMembership _ _ _ _) eqn:Habsent; simpl; [|done].
      intros [= <-]. exists root. eauto.
    + destruct (VerifyMembership _ _ _ _ _) eqn:Hmember; simpl; [|done].
      intros [= <-]. exists root. split; [done|]. split; [done|]. right. eauto.
  - intros (root & -> & -> & [[-> Habsent]|(value & -> & Hmember)]).
    + by rewrite Habsent.
    + by rewrite Hmember.
Qed.

(** X22. The constructors keep the type and the spec in a fixed
    correspondence: two operators built by constructors that carry the
    same type string carry the same spec, so the spec can be mapped from
    the type. *)
Theorem constructors_pair_Type_and_Spec (op1 op2 : CommitmentOp) :
  built_by_constructor op1 -> built_by_constructor op2 ->
  op_Type op1 = op_Type op2 -> op_Spec op1 = op_Spec op2.
Proof. intros [] []; simpl; done. Qed.
End Run_more.

Section ProofOpFromMap_more.
Context `{StoreInternals}.

(** X23. What [ProofOpFromMap] returns: with an error the zero envelope,
    never a filled one; without error the envelope of type
    ["ics23:simple"] whose key is the store name and whose data is the
    serialized existence proof converted from the proof of that name. *)
Theorem ProofOpFromMap_result (cmap : gmap string bytes) (storeName : string)
    (env : ProofOp_wire) (err : option error) :
  ProofOpFromMap cmap storeName = Returned (env, err) ->
  match err with
  | Some _ => env = zeroProofOp
  | None =>
      po_Type env = ProofOpSimpleMerkleCommitment
      /\ po_Key env = list_byte_of_string storeName
      /\ exists proof existProof,
           proofs_of cmap !! storeName = Some proof
           /\ ConvertExistenceProof proof (list_byte_of_string storeName)
                (default [] (cmap !! storeName)) = Ok existProof
           /\ CommitmentProof_Marshal (CommitmentProof_Exist existProof)
                = Ok (po_Data env)
  end.
Proof.
  unfold ProofOpFromMap, proofs_of.
  destruct (ProofsFromMap cmap) as [[[root proofs] keys]|p]; [|done].
  destruct (proofs !! storeName) as [proof|]; [|by intros [= <- <-]].
  destruct (ConvertExistenceProof _ _ _) as [existProof|e] eqn:Hconv;
    [|by intros [= <- <-]].
  unfold ProofOp. simpl.
  destruct (CommitmentProof_Marshal _) as [bz|e] eqn:Hbz; [|done].
  intros [= <- <-]. simpl. eauto 10.
Qed.
End ProofOpFromMap_more.

(** ** The further properties on the sample inputs *)

Lemma sample_ci_NoDup : NoDup (map si_Name (ci_StoreInfos sample_ci)).
Proof. apply (bool_decide_unpack _). vm_compute. exact I. Defined.

Lemma sample_codec_ci_well_typed : well_typed sample_codec_ci.
Proof.
  unfold well_typed. simpl. split; [lia|]. split; [lia|].
  repeat constructor; simpl; lia.
Defined.

Lemma sample_codec_ci'_well_typed : well_typed sample_codec_ci'.
Proof.
  unfold well_typed. simpl. split; [lia|]. split; [lia|].
  repeat constructor; simpl; lia.
Defined.

Lemma sample_Time_valid : valid_Time (mkTime 1700000000 5).
Proof. unfold valid_Time. simpl. lia. Defined.

Lemma sample_Time_fits : fits_UnixNano (mkTime 1700000000 5).
Proof. unfold fits_UnixNano. simpl. lia. Defined.

Lemma GetStoreCommitID_present_witness :
  NoDup (map si_Name (ci_StoreInfos sample_ci))
  /\ sample_auth ∈ ci_StoreInfos sample_ci
  /\ GetStoreCommitID sample_ci "auth" = mkCommitID 7 [x22].
Proof.
  assert (sample_auth ∈ ci_StoreInfos sample_ci) as Hin by (right; left).
  split; [exact sample_ci_NoDup|]. split; [exact Hin|].
  exact (GetStoreCommitID_present sample_ci sample_auth sample_ci_NoDup Hin).
Defined.

Lemma GetStoreCommitID_missing_witness :
  Forall (fun si => si_Name si <> "staking"%string) (ci_StoreInfos sample_ci)
  /\ GetStoreCommitID sample_ci "staking" = zeroCommitID
  /\ IsZero (GetStoreCommitID sample_ci "staking") = true.
Proof.
  assert (Forall (fun si => si_Name si <> "staking"%string) (ci_StoreInfos sample_ci))
    as Hnone by (repeat constructor; discriminate).
  split; [exact Hnone|].
  exact (GetStoreCommitID_missing sample_ci "staking" Hnone).
Defined.

Lemma sample_ci_GetStoreProof_bank :
  exists r, @GetStoreProof RunIcs23 RunBuilder sample_ci "bank"
    = Returned (set_StoreInfos sample_ci (sorted_StoreInfos sample_ci), r).
Proof.
  destruct (@GetStoreProof_nonempty RunIcs23 RunBuilder sample_ci "bank")
    as (si & _ & Heq); [discriminate|].
  eexists. exact Heq.
Defined.

Lemma GetStoreProof_sorts_in_place_witness :
  exists ci' r,
    @GetStoreProof RunIcs23 RunBuilder sample_ci "bank" = Returned (ci', r)
    /\ ci_Version ci' = 7
    /\ ci_Timestamp ci' = mkTime 1700000000 5
    /\ ci_CommitHash ci' = []
    /\ ci_StoreInfos ci' ≡ₚ [sample_bank; sample_auth]
    /\ StronglySorted le_Name (ci_StoreInfos ci').
Proof.
  destruct sample_ci_GetStoreProof_bank as [r Hret].
  eexists _, r. split; [exact Hret|].
  exact (@GetStoreProof_sorts_in_place RunIcs23 RunBuilder _ _ _ _ Hret).
Defined.

Lemma GetStoreCommitID_after_GetStoreProof_witness :
  exists ci' r,
    @GetStoreProof RunIcs23 RunBuilder sample_ci "bank" = Returned (ci', r)
    /\ GetStoreCommitID ci' "auth" = GetStoreCommitID sample_ci "auth".
Proof.
  destruct sample_ci_GetStoreProof_bank as [r Hret].
  eexists _, r. split; [exact Hret|].
  exact (@GetStoreCommitID_after_GetStoreProof RunIcs23 RunBuilder _ _ "bank" "auth" _
           sample_ci_NoDup Hret).
Defined.

Lemma GetStoreProof_present_name_witness :
  exists index root inners,
    sorted_StoreInfos sample_ci !! index = Some sample_bank
    /\ @GetStoreProof RunIcs23 RunBuilder sample_ci "bank"
         = Returned (set_StoreInfos sample_ci (sorted_StoreInfos sample_ci),
             (root,
              Some (@ConvertCommitmentOp RunIcs23 RunBuilder inners
                      (list_byte_of_string "bank") [x11; x11]),
              None)).
Proof.
  assert (sample_bank ∈ ci_StoreInfos sample_ci) as Hin by left.
  destruct (@GetStoreProof_present_name RunIcs23 RunBuilder sample_ci sample_bank
              (map (fun si => leaf_hash fnv1a (list_byte_of_string (si_Name si) ++ GetHash si))
                   (sorted_StoreInfos sample_ci))
              sample_ci_NoDup Hin eq_refl) as (index & Hindex & Heq).
  eexists index, _, _. split; [exact Hindex|]. exact Heq.
Defined.

Lemma GetStoreProof_root_is_Hash_witness :
  exists ci' root op err,
    @GetStoreProof RunIcs23 RunBuilder sample_ci "bank" = Returned (ci', (root, op, err))
    /\ @Hash RunIcs23 RunBuilder sample_ci = Returned (ci', root).
Proof.
  apply (@GetStoreProof_root_is_Hash RunIcs23 RunBuilder sample_ci "bank").
  - intros leaves i j. reflexivity.
  - discriminate.
  - reflexivity.
Defined.

Lemma GetStoreProof_again_witness :
  exists ci' r,
    @GetStoreProof RunIcs23 RunBuilder sample_ci "bank" = Returned (ci', r)
    /\ @GetStoreProof RunIcs23 RunBuilder ci' "bank" = Returned (ci', r).
Proof.
  destruct sample_ci_GetStoreProof_bank as [r Hret].
  eexists _, r. split; [exact Hret|].
  exact (@GetStoreProof_again RunIcs23 RunBuilder _ _ _ _ sample_ci_NoDup Hret).
Defined.

Lemma CommitInfo_CommitID_without_stores_witness :
  ci_StoreInfos sample_empty_ci = []
  /\ @CommitInfo_CommitID RunIcs23 RunBuilder sample_empty_ci
       = Returned (sample_empty_ci, mkCommitID 7 [])
  /\ IsZero (mkCommitID 7 []) = false.
Proof.
  split; [reflexivity|].
  exact (@CommitInfo_CommitID_without_stores RunIcs23 RunBuilder sample_empty_ci eq_refl).
Defined.

Lemma Hash_drops_LeafHash_error_witness :
  sample_gov ∈ ci_StoreInfos sample_unhashed_ci
  /\ exists ci',
       @Hash RunIcs23 StrictBuilder sample_unhashed_ci = Returned (ci', [])
       /\ forall storeKey, exists err,
            @GetStoreProof RunIcs23 StrictBuilder sample_unhashed_ci storeKey
              = Returned (ci', ([], None, Some err)).
Proof.
  assert (sample_gov ∈ ci_StoreInfos sample_unhashed_ci) as Hin by (right; left).
  split; [exact Hin|].
  exact (@Hash_drops_LeafHash_error RunIcs23 StrictBuilder sample_unhashed_ci sample_gov
           (LibraryError "leaf needs a value") Hin eq_refl eq_refl).
Defined.

Lemma Marshal_ignores_CommitHash_and_store_versions_witness :
  ci_CommitHash sample_codec_ci <> ci_CommitHash sample_codec_ci'
  /\ map si_CommitID (ci_StoreInfos sample_codec_ci)
       <> map si_CommitID (ci_StoreInfos sample_codec_ci')
  /\ Marshal sample_codec_ci = Marshal sample_codec_ci'.
Proof.
  split; [discriminate|]. split; [discriminate|].
  apply (Marshal_ignores_CommitHash_and_store_versions sample_codec_ci sample_codec_ci');
    reflexivity.
Defined.

Lemma Marshal_injective_witness :
  Marshal sample_codec_ci = Marshal sample_codec_ci'
  /\ ci_Version sample_codec_ci = ci_Version sample_codec_ci'
  /\ ci_Timestamp sample_codec_ci = ci_Timestamp sample_codec_ci'
  /\ map name_and_hash (ci_StoreInfos sample_codec_ci)
       = map name_and_hash (ci_StoreInfos sample_codec_ci').
Proof.
  assert (Marshal sample_codec_ci = Marshal sample_codec_ci') as Heq
    by (vm_compute; reflexivity).
  split; [exact Heq|].
  exact (Marshal_injective sample_codec_ci sample_codec_ci'
           sample_codec_ci_well_typed sample_Time_valid sample_Time_fits
           sample_codec_ci'_well_typed sample_Time_valid sample_Time_fits Heq).
Defined.

Lemma sample_codec_ci_Marshal :
  exists bz, Marshal sample_codec_ci = Ok bz /\ length bz = 24%nat.
Proof. eexists. split; vm_compute; reflexivity. Defined.

Lemma Unmarshal_ignores_trailing_bytes_witness :
  exists bz,
    Marshal sample_codec_ci = Ok bz
    /\ Unmarshal zeroCommitInfo (bz ++ [xff; xff]) = Unmarshal zeroCommitInfo bz
    /\ snd (Unmarshal zeroCommitInfo (bz ++ [xff; xff])) = None.
Proof.
  destruct sample_codec_ci_Marshal as (bz & Hbz & _).
  exists bz. split; [exact Hbz|].
  exact (Unmarshal_ignores_trailing_bytes sample_codec_ci zeroCommitInfo bz [xff; xff]
           sample_codec_ci_well_typed sample_Time_valid sample_Time_fits Hbz).
Defined.

Lemma Unmarshal_version_only_witness :
  0 <= 300 < 2 ^ 64
  /\ Unmarshal sample_hashed_ci (PutUvarint 300)
       = (set_Version sample_hashed_ci 300, Some (LibraryError "buffer too small")).
Proof.
  assert (0 <= 300 < 2 ^ 64) as Hversion by lia.
  split; [exact Hversion|].
  exact (Unmarshal_version_only sample_hashed_ci 300 Hversion).
Defined.

Lemma Unmarshal_truncated_witness :
  exists bz,
    Marshal sample_codec_ci = Ok bz
    /\ (18 < length bz)%nat
    /\ exists e, snd (Unmarshal zeroCommitInfo (take 18 bz)) = Some e.
Proof.
  destruct sample_codec_ci_Marshal as (bz & Hbz & Hlen).
  assert (18 < length bz)%nat as Hn by (rewrite Hlen; lia).
  exists bz. split; [exact Hbz|]. split; [exact Hn|].
  exact (Unmarshal_truncated sample_codec_ci zeroCommitInfo bz 18
           sample_codec_ci_well_typed sample_Time_fits Hbz Hn).
Defined.

Lemma sample_codec_ci_Unmarshal :
  exists bz ci',
    Marshal sample_codec_ci = Ok bz
    /\ Unmarshal sample_hashed_ci bz = (ci', None)
    /\ ci_StoreInfos ci' <> []
    /\ Z.of_nat (length (ci_StoreInfos ci')) < 2 ^ 63.
Proof.
  eexists _, _. split; [vm_compute; reflexivity|].
  split; [vm_compute; reflexivity|]. split; [discriminate|]. simpl. lia.
Defined.

Lemma Unmarshal_store_versions_witness :
  exists bz ci',
    Marshal sample_codec_ci = Ok bz
    /\ Unmarshal sample_hashed_ci bz = (ci', None)
    /\ Forall (fun si => cid_Version (si_CommitID si) = ci_Version ci')
         (ci_StoreInfos ci').
Proof.
  destruct sample_codec_ci_Unmarshal as (bz & ci' & Hbz & Hdec & _ & Hlen).
  exists bz, ci'. split; [exact Hbz|]. split; [exact Hdec|].
  exact (Unmarshal_store_versions sample_hashed_ci ci' bz Hdec Hlen).
Defined.

Lemma encodedSize_is_Marshal_length_witness :
  exists bz,
    Marshal sample_codec_ci = Ok bz
    /\ Z.of_nat (length bz) < 2 ^ 63
    /\ @encodedSize RunSizes sample_codec_ci = Z.of_nat (length bz).
Proof.
  destruct sample_codec_ci_Marshal as (bz & Hbz & Hlen).
  assert (Z.of_nat (length bz) < 2 ^ 63) as Hfits by (rewrite Hlen; lia).
  exists bz. split; [exact Hbz|]. split; [exact Hfits|].
  apply (@encodedSize_is_Marshal_length RunSizes sample_codec_ci bz);
    [intros; reflexivity..|exact Hbz|exact Hfits].
Defined.

Lemma Hash_after_round_trip_witness :
  exists bz ci' after after' root,
    Marshal sample_codec_ci = Ok bz
    /\ Unmarshal zeroCommitInfo bz = (ci', None)
    /\ @Hash RunIcs23 RunBuilder ci' = Returned (after', root)
    /\ @Hash RunIcs23 RunBuilder
         (mkCommitInfo 7 (ci_StoreInfos sample_codec_ci) (mkTime 1700000000 5) [])
         = Returned (after, root).
Proof.
  destruct sample_codec_ci_Marshal as (bz & Hbz & _).
  destruct (@Hash_after_round_trip RunIcs23 RunBuilder sample_codec_ci zeroCommitInfo bz
              sample_codec_ci_well_typed sample_Time_valid sample_Time_fits Hbz eq_refl)
    as (ci' & after & after' & root & Hdec & Hafter' & Hafter).
  exists bz, ci', after, after', root. done.
Defined.

Lemma Hash_after_Unmarshal_into_hashed_receiver_witness :
  exists bz ci',
    Marshal sample_codec_ci = Ok bz
    /\ Unmarshal sample_hashed_ci bz = (ci', None)
    /\ @Hash RunIcs23 RunBuilder ci' = Returned (ci', [xca; xfe]).
Proof.
  destruct sample_codec_ci_Unmarshal as (bz & ci' & Hbz & Hdec & Hstores & _).
  exists bz, ci'. split; [exact Hbz|]. split; [exact Hdec|].
  apply (@Hash_after_Unmarshal_into_hashed_receiver RunIcs23 RunBuilder
           sample_hashed_ci ci' bz Hdec Hstores).
  discriminate.
Defined.

Lemma Run_errors_wrap_ErrInvalidProof_witness :
  @Run RunIcs23 sample_op [[x22]]
    = Err (InvalidProof_Existence (list_byte_of_string "bank") [x22])
  /\ wraps_ErrInvalidProof
       (InvalidProof_Existence (list_byte_of_string "bank") [x22]) = true.
Proof.
  assert (@Run RunIcs23 sample_op [[x22]]
          = Err (InvalidProof_Existence (list_byte_of_string "bank") [x22])) as Herr
    by (vm_compute; reflexivity).
  split; [exact Herr|].
  exact (@Run_errors_wrap_ErrInvalidProof RunIcs23 sample_op [[x22]] _ Herr).
Defined.

Lemma Run_Ok_iff_witness :
  exists root,
    @Run RunIcs23 sample_op [[x11; x11]] = Ok [root]
    /\ @CommitmentProof_Calculate RunIcs23 (op_Proof sample_op) = Ok root.
Proof.
  assert (exists root, @Run RunIcs23 sample_op [[x11; x11]] = Ok [root]) as [root Hrun]
    by (eexists; vm_compute; reflexivity).
  exists root. split; [exact Hrun|].
  apply (@Run_Ok_iff RunIcs23 sample_op [[x11; x11]] [root]) in Hrun
    as (root' & Hroot & [= <-] & _).
  exact Hroot.
Defined.

Lemma constructors_pair_Type_and_Spec_witness :
  @op_Type RunIcs23 sample_op
    = op_Type (@NewSimpleMerkleCommitmentOp RunIcs23 [x01] NoProof)
  /\ @op_Spec RunIcs23 sample_op
       = op_Spec (@NewSimpleMerkleCommitmentOp RunIcs23 [x01] NoProof).
Proof.
  split; [reflexivity|].
  apply (@constructors_pair_Type_and_Spec RunIcs23).
  - apply (@built_SimpleMerkle RunIcs23).
  - apply (@built_SimpleMerkle RunIcs23).
  - reflexivity.
Defined.

Lemma ProofOpFromMap_result_witness :
  exists env,
    @ProofOpFromMap RunIcs23 RunBuilder sample_cmap "b" = Returned (env, None)
    /\ po_Type env = ProofOpSimpleMerkleCommitment
    /\ po_Key env = list_byte_of_string "b".
Proof.
  assert (exists env, @ProofOpFromMap RunIcs23 RunBuilder sample_cmap "b"
                        = Returned (env, None)) as [env Hret]
    by (eexists; vm_compute; reflexivity).
  exists env. split; [exact Hret|].
  destruct (@ProofOpFromMap_result RunIcs23 RunBuilder sample_cmap "b" env None Hret)
    as (Htype & Hkey & _).
  split; [exact Htype|exact Hkey].
Defined.
